(** * Vector based index maps of libosmium

    Shallow embedding of
    [third_party/libosmium/include/osmium/index/detail/vector_map.hpp]:
    the class templates [VectorBasedDenseMap] (identifier = offset into a
    vector of values) and [VectorBasedSparseMap] (vector of
    (identifier, value) pairs, sorted on request and searched with
    [std::lower_bound]).

    Conventions of the embedding:
    - [TId] is an unsigned 64 bit integer (the library instantiates the
      maps with its [unsigned_object_id_type]); so is [size_t].  Both are
      modelled as [N]; where the code computes with them ([id+1],
      [size() * sizeof(...)]) the wrap-around modulo [2^64] is written out.
    - the vector is a [list]; [std::vector::resize] is stdpp's [resize]
      with the value-initialised element as filler, behind the checks
      that make it throw: [std::length_error] beyond [max_size()],
      [std::bad_alloc] when the allocator does not deliver.
    - [TValue] is a template parameter: the operations the code uses on it
      are collected in the class [ValueType].
    - exceptions are values of [result] and [completion]; an access
      outside of the vector through [operator[]], which C++ leaves
      undefined, is [None]. *)

From Stdlib Require Import NArith Lia.
From Stdlib.Strings Require Import Byte.
From stdpp Require Import base decidable option numbers list sorting.
From Equations Require Import Equations.

Local Open Scope N_scope.

(** ** Machine integers *)

Definition word_bits : N := 64.

(** Reduction of an arithmetic result to the range of [TId] and [size_t]. *)
Definition wrap (n : N) : N := n mod 2 ^ word_bits.

(** ** The value type *)

(** What the two class templates use of [TValue]: [operator==] (dense
    [get]), [operator<] (through [operator<] of [std::pair] in [sort]),
    [osmium::index::empty_value<TValue>()], the value-initialised
    [TValue{}] that [resize] writes into new slots, [sizeof(TValue)], and
    the object representation that [dump_as_array] hands to the writer.
    [index.hpp], which declares [empty_value], is not part of the sources
    at hand, so the sentinel is a member of the class. *)
Class ValueType (TValue : Type) := {
  value_eq_dec :: EqDecision TValue;
  value_lt : TValue → TValue → bool;
  empty_value : TValue;
  default_value : TValue;
  sizeof_value : N;
  object_bytes : TValue → list byte;
}.

(** [operator<] of [TValue] meets the C++ requirement _Compare_: it is a
    strict weak ordering. *)
Class Compare (TValue : Type) `{!ValueType TValue} : Prop := {
  value_lt_irrefl x : value_lt x x = false;
  value_lt_trans x y z :
    value_lt x y = true → value_lt y z = true → value_lt x z = true;
  value_lt_incomparable_trans x y z :
    value_lt x y = false → value_lt y x = false →
    value_lt y z = false → value_lt z y = false →
    value_lt x z = false;
}.

(** [operator<] of [TValue] is moreover total: values that it does not
    order are equal (as for integers and for [osmium::Location]). *)
Class TotalCompare (TValue : Type) `{!ValueType TValue} : Prop := {
  total_compare :: Compare TValue;
  value_lt_connected x y :
    value_lt x y = false → value_lt y x = false → x = y;
}.

(** The object representation of a value takes [sizeof(TValue)] bytes. *)
Class Layout (TValue : Type) `{!ValueType TValue} : Prop := {
  object_bytes_length v : N.of_nat (length (object_bytes v)) = sizeof_value;
}.

(** ** Results of [get] *)

(** [get] returns a value or throws [osmium::not_found] through
    [not_found_error(id)]. *)
Inductive result (A : Type) : Type :=
| Ok (value : A)
| NotFound (id : N).
Arguments Ok {A} value.
Arguments NotFound {A} id.

(** ** The writer *)

(** A file descriptor open for writing: the bytes that have reached the
    file, and what the device will answer to the coming [write] requests
    ([Some n]: it takes [n] of the bytes offered, [None]: it reports an
    error). *)
Record sink := Sink {
  written : list byte;
  device : list (option nat);
}.

Inductive write_result : Type :=
| Written (fd : sink)
| WriteFailed.

(** Modelled from the spec: [osmium::io::detail::reliable_write] of
    [osmium/io/detail/read_write.hpp], which is not part of the sources at
    hand.  The spec asks of the byte-stream writer that it writes the full
    byte count or fails, retrying until the write is complete and never
    reporting a partial write as success. *)
Fixpoint reliable_write_loop (answers : list (option nat))
  (done pending : list byte) : write_result :=
  match pending, answers with
  | [], _ => Written (Sink done answers)
  | _ :: _, Some n :: answers =>
      reliable_write_loop answers (done ++ take n pending) (drop n pending)
  | _ :: _, None :: _ => WriteFailed
  | _ :: _, [] => WriteFailed
  end.

(** Modelled from the spec: [reliable_write(fd, buffer, size)] writes the
    first [size] bytes at [buffer]. *)
Definition reliable_write (fd : sink) (buffer : list byte) (size : N)
  : write_result :=
  reliable_write_loop (device fd) (written fd) (take (N.to_nat size) buffer).

(** ** The vector *)

(** What [std::vector::resize] throws. *)
Inductive exception : Type :=
| length_error
| bad_alloc.

(** How a call that can throw ends. *)
Inductive completion (A : Type) : Type :=
| Normal (a : A)
| Throws (e : exception).
Arguments Normal {A} a.
Arguments Throws {A} e.

(** What the dense map meets of [TVector], a [std::vector], when it
    grows: [max_size()], a [size_t], and the storage behind the vector.
    [allocates n] says whether storage for [n] slots is there for the
    vector, reserved or to be had from the allocator; it is taken to
    answer the same way throughout.  Neither is part of the sources at
    hand. *)
Class Storage := {
  max_size : N;
  max_size_fits : max_size < 2 ^ word_bits;
  allocates : N → bool;
}.

(** ** VectorBasedDenseMap *)

Module VectorBasedDenseMap.
Section dense.
Context {TValue : Type} {VT : ValueType TValue} {ST : Storage}.

Local Abbreviation vector_type := (list TValue).

Definition size (m_vector : vector_type) : N := N.of_nat (length m_vector).

(** [m_vector.resize(new_size)].  Down to [new_size] slots it drops the
    rest.  Beyond [size()] it appends value-initialised slots, unless
    [new_size] exceeds [max_size()], where it throws
    [std::length_error], or the storage is not to be had, where it
    throws [std::bad_alloc]; when it throws, the vector stays as it
    was. *)
Definition resize (new_size : N) (m_vector : vector_type)
  : completion vector_type :=
  if new_size <=? size m_vector then
    Normal (list.resize (N.to_nat new_size) default_value m_vector)
  else if max_size <? new_size then Throws length_error
  else if allocates new_size then
    Normal (list.resize (N.to_nat new_size) default_value m_vector)
  else Throws bad_alloc.

(** [set]: [id+1] is computed in [TId].  An exception of [resize]
    leaves [set] before anything is stored.  The final
    [m_vector[id] = value] is unchecked; outside of the vector it is
    undefined ([None]). *)
Definition set (id : N) (value : TValue) (m_vector : vector_type)
  : option (completion vector_type) :=
  let grown :=
    if size m_vector <=? id then resize (wrap (id + 1)) m_vector
    else Normal m_vector in
  match grown with
  | Normal m_vector =>
      if id <? size m_vector
      then Some (Normal (<[N.to_nat id := value]> m_vector))
      else None
  | Throws e => Some (Throws e)
  end.

(** Growth to [n] slots goes through: [n] is within [max_size()] and the
    storage is to be had. *)
Definition grows (n : N) : Prop := n ≤ max_size ∧ allocates n = true.

(** The vector has the slot [id], or can grow to have it. *)
Definition room_for (id : N) (m_vector : vector_type) : Prop :=
  id < size m_vector ∨ grows (id + 1).

(** [get]: [m_vector.at(id)] throws [std::out_of_range] outside of the
    vector, which the [catch] turns into [not_found_error(id)]. *)
Definition get (id : N) (m_vector : vector_type) : result TValue :=
  match m_vector !! N.to_nat id with
  | Some value =>
      if decide (value = empty_value) then NotFound id else Ok value
  | None => NotFound id
  end.

Definition byte_size (m_vector : vector_type) : N :=
  wrap (size m_vector * sizeof_value).

Definition used_memory (m_vector : vector_type) : N :=
  wrap (sizeof_value * size m_vector).

(** [clear]: [m_vector.clear()], then [shrink_to_fit()], which only
    gives back capacity. *)
Definition clear (m_vector : vector_type) : vector_type := [].

(** [reinterpret_cast<const char*>(m_vector.data())]: the elements lie
    one after the other, each with its object representation. *)
Definition data_bytes (m_vector : vector_type) : list byte :=
  mjoin (object_bytes <$> m_vector).

Definition dump_as_array (fd : sink) (m_vector : vector_type)
  : write_result :=
  reliable_write fd (data_bytes m_vector) (byte_size m_vector).

(** One call after another: [next] runs on the vector that [first]
    leaves when it returns; an exception or undefined behaviour of
    [first] is the end of it. *)
Definition and_then (first : option (completion vector_type))
  (next : vector_type → option (completion vector_type))
  : option (completion vector_type) :=
  match first with
  | Some (Normal m_vector) => next m_vector
  | _ => first
  end.

(** A batch of [set] calls, in the order of the list. *)
Definition set_sequence (calls : list (N * TValue)) (m_vector : vector_type)
  : option (completion vector_type) :=
  foldl (λ run call, and_then run (set call.1 call.2))
    (Some (Normal m_vector)) calls.

End dense.
End VectorBasedDenseMap.

(** ** Algorithms of the standard library *)

Section algorithm.
Context {A : Type}.

(** [std::lower_bound(first, last, value, comp)] on the range of [count]
    elements of [v] that starts at offset [first]: the halving loop of
    the standard library,
<<
    while (count > 0) {
        it = first; step = count / 2; advance(it, step);
        if (comp(it[0], value)) { first = ++it; count -= step + 1; }
        else count = step;
    }
    return first;
>>
    The result is an offset into [v]; [length v] stands for [end()].
    The loop only reads inside of the range it was given; the [None]
    clause is for a range that does not lie inside of [v]. *)
Equations? lower_bound_loop (v : list A) (value : A) (comp : A → A → bool)
  (first count : nat) : nat by wf count lt :=
lower_bound_loop v value comp first 0 := first;
lower_bound_loop v value comp first (S n)
  with v !! (first + S n / 2)%nat => {
  | Some x with comp x value => {
    | true :=
        lower_bound_loop v value comp
          (first + S n / 2 + 1)%nat (S n - (S n / 2 + 1))%nat;
    | false := lower_bound_loop v value comp first (S n / 2)%nat };
  | None := first }.
Proof.
  - lia.
  - pose proof (Nat.divmod_spec n 1 0 0 (Nat.le_0_l 1)) as Hdiv.
    destruct (Nat.divmod n 1 0 0) as [q r]; simpl in *; lia.
Qed.

Definition lower_bound (v : list A) (value : A) (comp : A → A → bool)
  : nat :=
  lower_bound_loop v value comp 0 (length v).

End algorithm.

(** ** VectorBasedSparseMap *)

Module VectorBasedSparseMap.
Section sparse.
Context {TValue : Type} {VT : ValueType TValue}.

(** [element_type] is [std::pair<TId, TValue>]. *)
Local Abbreviation element_type := (N * TValue)%type.
Local Abbreviation vector_type := (list element_type).

(** [set]: [m_vector.push_back(element_type(id, value))]. *)
Definition set (id : N) (value : TValue) (m_vector : vector_type)
  : vector_type :=
  m_vector ++ [(id, value)].

(** The comparison handed to [std::lower_bound] by [get]. *)
Definition first_lt (a b : element_type) : bool := a.1 <? b.1.

(** [get]: [m !! result = None] is [result == m_vector.end()]. *)
Definition get (id : N) (m_vector : vector_type) : result TValue :=
  let element := (id, empty_value) in
  let result := lower_bound m_vector element first_lt in
  match m_vector !! result with
  | None => NotFound id
  | Some found =>
      if decide (found.1 ≠ id) then NotFound id else Ok found.2
  end.

Definition size (m_vector : vector_type) : N := N.of_nat (length m_vector).

Definition clear (m_vector : vector_type) : vector_type := [].

(** [operator<] of [std::pair]: lexicographic,
    [a.first < b.first || (!(b.first < a.first) && a.second < b.second)]. *)
Definition element_lt (a b : element_type) : bool :=
  (a.1 <? b.1) || (negb (b.1 <? a.1) && value_lt a.2 b.2).

(** The order in which [std::sort] leaves its range: no element is
    smaller than an earlier one. *)
Definition element_le (a b : element_type) : Prop := element_lt b a = false.

#[global] Instance element_le_dec : RelDecision element_le.
Proof. intros a b. unfold element_le. apply _. Defined.

(** What [std::sort(first, last)] promises of its result [sorted] for
    the input [m_vector]: the same elements, in ascending order.  Which
    of several such arrangements it produces is not specified. *)
Definition std_sort_result (m_vector sorted : vector_type) : Prop :=
  sorted ≡ₚ m_vector ∧ StronglySorted element_le sorted.

(** [sort]: [std::sort(m_vector.begin(), m_vector.end())], run as a
    merge sort (see [sort_meets_std_sort] and [std_sort_result_unique]
    below for what this choice of algorithm amounts to). *)
Definition sort (m_vector : vector_type) : vector_type :=
  merge_sort element_le m_vector.

(** A batch of [set] calls, in the order of the list. *)
Definition set_all (calls : list element_type) (m_vector : vector_type)
  : vector_type :=
  foldl (λ m call, set call.1 call.2 m) m_vector calls.

End sparse.
End VectorBasedSparseMap.

(** ** Value types used in the examples *)

Definition byte_of_N (n : N) : byte := default x00 (Byte.of_N (n mod 256)).

(** The [count] low bytes of [n], least significant first. *)
Fixpoint le_bytes (count : nat) (n : N) : list byte :=
  match count with
  | O => []
  | S count => byte_of_N n :: le_bytes count (n / 256)
  end.

(** An instantiation for the examples: 32 bit unsigned integers with the
    sentinel [0xFFFFFFFF] (the value type of the spec's own example);
    value-initialisation gives [0]. *)
Definition uint32_max_sentinel : ValueType N := {|
  value_eq_dec := N.eq_dec;
  value_lt := N.ltb;
  empty_value := 0xFFFFFFFF;
  default_value := 0;
  sizeof_value := 4;
  object_bytes := le_bytes 4;
|}.

(** An instantiation for the examples: 32 bit unsigned integers whose
    sentinel is the value-initialised [0], as the generic
    [empty_value<T>()] chooses it. *)
Definition uint32_zero_sentinel : ValueType N := {|
  value_eq_dec := N.eq_dec;
  value_lt := N.ltb;
  empty_value := 0;
  default_value := 0;
  sizeof_value := 4;
  object_bytes := le_bytes 4;
|}.

(** An instantiation for the examples: a value of two 32 bit fields
    whose [operator<] looks at the first field only, a strict weak
    ordering that leaves values with equal first fields unordered. *)
Definition by_first : ValueType (N * N) := {|
  value_eq_dec := _;
  value_lt a b := a.1 <? b.1;
  empty_value := (0, 0);
  default_value := (0, 0);
  sizeof_value := 8;
  object_bytes v := le_bytes 4 v.1 ++ le_bytes 4 v.2;
|}.

(** An instantiation for the examples: a [std::vector] of a 4 byte type
    on a 64 bit machine, whose [max_size()] is [PTRDIFF_MAX / 4], with
    storage for [2^32] slots. *)
Definition example_storage : Storage := {|
  max_size := 2 ^ 61 - 1;
  max_size_fits := eq_refl;
  allocates n := n <=? 2 ^ 32;
|}.

(** * Properties *)

(** ** Laws of the example value types *)

Lemma le_bytes_length count n : length (le_bytes count n) = count.
Proof.
  revert n. induction count as [|count IH]; intros n; simpl; [done|].
  by rewrite IH.
Qed.

Section uint32_laws.
Lemma ltb_compare (VT : ValueType N) :
  (∀ x y, @value_lt N VT x y = N.ltb x y) → @Compare N VT.
Proof.
  intros Hlt. split; intros *; rewrite !Hlt, ?N.ltb_lt, ?N.ltb_ge; lia.
Qed.

Lemma uint32_max_sentinel_compare : @Compare N uint32_max_sentinel.
Proof. by apply ltb_compare. Qed.

Lemma uint32_zero_sentinel_compare : @Compare N uint32_zero_sentinel.
Proof. by apply ltb_compare. Qed.

Lemma uint32_max_sentinel_total : @TotalCompare N uint32_max_sentinel.
Proof.
  split; [apply uint32_max_sentinel_compare|].
  intros x y. simpl. rewrite !N.ltb_ge. lia.
Qed.

Lemma uint32_zero_sentinel_total : @TotalCompare N uint32_zero_sentinel.
Proof.
  split; [apply uint32_zero_sentinel_compare|].
  intros x y. simpl. rewrite !N.ltb_ge. lia.
Qed.

Lemma uint32_max_sentinel_layout : @Layout N uint32_max_sentinel.
Proof.
  split. intros v. change (N.of_nat (length (le_bytes 4 v)) = 4).
  by rewrite le_bytes_length.
Qed.

Lemma uint32_zero_sentinel_layout : @Layout N uint32_zero_sentinel.
Proof.
  split. intros v. change (N.of_nat (length (le_bytes 4 v)) = 4).
  by rewrite le_bytes_length.
Qed.
End uint32_laws.

Lemma by_first_compare : @Compare (N * N) by_first.
Proof.
  split; intros *; unfold value_lt; simpl;
    rewrite ?N.ltb_lt, ?N.ltb_ge; lia.
Qed.

(** ** The writer *)

Lemma reliable_write_loop_written answers done pending fd :
  reliable_write_loop answers done pending = Written fd →
  written fd = done ++ pending.
Proof.
  revert done pending.
  induction answers as [|[n|] answers IH]; intros done [|b pending] Hrun;
    simpl in Hrun; try discriminate.
  - inversion Hrun; subst. simpl. by rewrite app_nil_r.
  - inversion Hrun; subst. simpl. by rewrite app_nil_r.
  - apply IH in Hrun. by rewrite Hrun, <- app_assoc, take_drop.
  - inversion Hrun; subst. simpl. by rewrite app_nil_r.
Qed.

Lemma reliable_write_all_or_nothing fd buffer size :
  reliable_write fd buffer size = WriteFailed ∨
  ∃ fd', reliable_write fd buffer size = Written fd' ∧
         written fd' = written fd ++ take (N.to_nat size) buffer.
Proof.
  unfold reliable_write.
  destruct (reliable_write_loop _ _ _) as [fd'|] eqn:Hrun; [right|by left].
  exists fd'. split; [done|]. by eapply reliable_write_loop_written.
Qed.

(** A device that takes everything it is offered in one request. *)
Lemma reliable_write_accepting fd buffer size answers :
  device fd = Some (N.to_nat size) :: answers →
  reliable_write fd buffer size =
    Written (Sink (written fd ++ take (N.to_nat size) buffer)
                  (match take (N.to_nat size) buffer with
                   | [] => device fd | _ => answers end)).
Proof.
  intros Hdev. unfold reliable_write. rewrite Hdev.
  destruct (take (N.to_nat size) buffer) as [|b pending] eqn:Htake.
  - simpl. by rewrite app_nil_r.
  - assert (length (b :: pending) ≤ N.to_nat size)%nat as Hlen.
    { rewrite <- Htake, length_take. lia. }
    cbn [reliable_write_loop].
    rewrite take_ge, drop_ge by done.
    by destruct answers.
Qed.

(** A device that takes the bytes, in requests of [counts] bytes at
    most, completes the write, whatever it would answer afterwards. *)
Lemma reliable_write_loop_takes counts rest done pending :
  (length pending ≤ sum_list counts)%nat →
  ∃ rest',
    reliable_write_loop ((Some <$> counts) ++ rest) done pending =
    Written (Sink (done ++ pending) rest').
Proof.
  revert done pending.
  induction counts as [|n counts IH]; intros done pending Hlen.
  - destruct pending as [|b pending]; [|simpl in Hlen; lia].
    exists rest. simpl. rewrite app_nil_r. by destruct rest.
  - destruct pending as [|b pending].
    { eexists. simpl. by rewrite app_nil_r. }
    rewrite fmap_cons. cbn [app reliable_write_loop].
    destruct (IH (done ++ take n (b :: pending)) (drop n (b :: pending)))
      as [rest' Hrun].
    { rewrite length_drop. cbn [length]. simpl in Hlen. lia. }
    exists rest'. by rewrite Hrun, <- app_assoc, take_drop.
Qed.

(** A device that reports an error, or answers no more, before it has
    taken the bytes makes the write fail. *)
Lemma reliable_write_loop_fails counts rest done pending :
  (sum_list counts < length pending)%nat →
  reliable_write_loop ((Some <$> counts) ++ None :: rest) done pending =
    WriteFailed ∧
  reliable_write_loop (Some <$> counts) done pending = WriteFailed.
Proof.
  revert done pending.
  induction counts as [|n counts IH]; intros done pending Hlen.
  - destruct pending as [|b pending]; [simpl in Hlen; lia|done].
  - destruct pending as [|b pending]; [simpl in Hlen; lia|].
    rewrite fmap_cons. cbn [app reliable_write_loop].
    apply IH. rewrite length_drop. cbn [length]. simpl in Hlen. lia.
Qed.

(** ** VectorBasedDenseMap *)

Module DenseMapFacts.
Import VectorBasedDenseMap.

Section facts.
Context {TValue : Type} {VT : ValueType TValue} {ST : Storage}.
Implicit Types (id j : N) (value : TValue) (m : list TValue).

Lemma wrap_small n : n < 2 ^ word_bits → wrap n = n.
Proof. apply N.mod_small. Qed.

Lemma wrap_le n : wrap n ≤ n.
Proof. unfold wrap. apply N.Div0.mod_le. Qed.

Lemma size_list_resize n m :
  size (list.resize (N.to_nat n) default_value m) = n.
Proof. unfold size. rewrite length_resize. lia. Qed.

Lemma lookup_lt_size id m : id < size m ↔ is_Some (m !! N.to_nat id).
Proof. rewrite lookup_lt_is_Some. unfold size. lia. Qed.

(** *** get *)

Lemma get_Ok id m value :
  get id m = Ok value ↔ m !! N.to_nat id = Some value ∧ value ≠ empty_value.
Proof.
  unfold get. destruct (m !! N.to_nat id) as [stored|].
  - destruct (decide (stored = empty_value)) as [->|Hstored]; split.
    + done.
    + by intros [[= <-] ?].
    + by intros [= <-].
    + by intros [[= <-] _].
  - split; [done|by intros [? _]].
Qed.

Lemma get_NotFound id m :
  get id m = NotFound id ↔
  size m ≤ id ∨ m !! N.to_nat id = Some empty_value.
Proof.
  unfold get. destruct (m !! N.to_nat id) as [stored|] eqn:Hat.
  - assert (id < size m) as Hlt by (apply lookup_lt_size; eauto).
    destruct (decide (stored = empty_value)) as [->|Hstored].
    + split; [by right|done].
    + split; [done|]. intros [Hge|[=]]; [lia|done].
  - split; [intros _; left|done].
    apply lookup_ge_None in Hat. unfold size. lia.
Qed.

Lemma get_NotFound_id id id' m : get id m = NotFound id' → id' = id.
Proof.
  unfold get. destruct (m !! N.to_nat id) as [stored|]; [|congruence].
  destruct (decide (stored = empty_value)); congruence.
Qed.

(** *** set *)

Lemma grows_fits n : grows n → n < 2 ^ word_bits.
Proof. intros [Hle _]. pose proof max_size_fits. lia. Qed.

Lemma resize_shrinks n m :
  n ≤ size m →
  resize n m = Normal (list.resize (N.to_nat n) default_value m).
Proof. intros Hle%N.leb_le. unfold resize. by rewrite Hle. Qed.

Lemma resize_grows n m :
  size m < n → grows n →
  resize n m = Normal (list.resize (N.to_nat n) default_value m).
Proof.
  intros Hlt%N.leb_gt [Hmax%N.ltb_ge Halloc]. unfold resize.
  by rewrite Hlt, Hmax, Halloc.
Qed.

(** Where the vector has room for the slot [id], [set] returns. *)
Lemma set_returns id value m :
  room_for id m →
  set id value m =
    Some (Normal (<[N.to_nat id := value]>
            (if size m <=? id
             then list.resize (N.to_nat (id + 1)) default_value m
             else m))).
Proof.
  intros Hroom. unfold set.
  destruct (N.leb_spec (size m) id) as [Hle|Hgt].
  - destruct Hroom as [?|Hgrows]; [lia|].
    rewrite (wrap_small _ (grows_fits _ Hgrows)).
    rewrite resize_grows by (done || lia).
    rewrite size_list_resize.
    by replace (id <? id + 1) with true by (symmetry; apply N.ltb_lt; lia).
  - apply N.ltb_lt in Hgt. by rewrite Hgt.
Qed.

(** [set] returns nowhere else. *)
Lemma set_room id value m m' :
  set id value m = Some (Normal m') → room_for id m.
Proof.
  unfold set, resize.
  destruct (N.leb_spec (size m) id) as [Hle|Hgt]; [|by left].
  pose proof (wrap_le (id + 1)) as Hwrap.
  destruct (N.leb_spec (wrap (id + 1)) (size m)).
  { rewrite size_list_resize.
    destruct (N.ltb_spec id (wrap (id + 1))); [lia|done]. }
  destruct (N.ltb_spec max_size (wrap (id + 1))); [done|].
  destruct (allocates (wrap (id + 1))) eqn:Halloc; [|done].
  rewrite size_list_resize.
  destruct (N.ltb_spec id (wrap (id + 1))); [|done].
  intros _. right.
  assert (wrap (id + 1) = id + 1) as Heq by lia.
  rewrite Heq in *. by split.
Qed.

Lemma set_Normal id value m m' :
  set id value m = Some (Normal m') →
  m' = <[N.to_nat id := value]>
         (if size m <=? id
          then list.resize (N.to_nat (id + 1)) default_value m
          else m).
Proof.
  intros Hset. pose proof (set_room _ _ _ _ Hset) as Hroom.
  rewrite (set_returns _ _ _ Hroom) in Hset. congruence.
Qed.

(** Growth beyond [max_size()] ends in [std::length_error]. *)
Lemma set_length_error id value m :
  size m ≤ id → id + 1 < 2 ^ word_bits → max_size < id + 1 →
  set id value m = Some (Throws length_error).
Proof.
  intros Hle%N.leb_le Hid Hmax. unfold set, resize.
  rewrite Hle, (wrap_small _ Hid).
  replace (id + 1 <=? size m) with false
    by (symmetry; apply N.leb_gt; apply N.leb_le in Hle; lia).
  by replace (max_size <? id + 1) with true by (symmetry; by apply N.ltb_lt).
Qed.

(** Growth for which the storage is not to be had ends in
    [std::bad_alloc]. *)
Lemma set_bad_alloc id value m :
  size m ≤ id → id + 1 ≤ max_size → allocates (id + 1) = false →
  set id value m = Some (Throws bad_alloc).
Proof.
  intros Hle%N.leb_le Hmax Halloc. unfold set, resize.
  pose proof max_size_fits.
  rewrite Hle, wrap_small by lia.
  replace (id + 1 <=? size m) with false
    by (symmetry; apply N.leb_gt; apply N.leb_le in Hle; lia).
  replace (max_size <? id + 1) with false by (symmetry; by apply N.ltb_ge).
  by rewrite Halloc.
Qed.

(** At the largest identifier [id+1] wraps to [0]: the vector is emptied
    and the store that follows is outside of it. *)
Lemma set_undefined_at_max value m :
  size m < 2 ^ word_bits →
  set (2 ^ word_bits - 1) value m = None.
Proof.
  intros Hfits. unfold set.
  replace (wrap (2 ^ word_bits - 1 + 1)) with 0 by done.
  replace (size m <=? 2 ^ word_bits - 1) with true
    by (symmetry; apply N.leb_le; lia).
  rewrite resize_shrinks by apply N.le_0_l.
  by rewrite size_list_resize.
Qed.

(** *** dump_as_array *)

Lemma data_bytes_length `{!Layout TValue} m :
  N.of_nat (length (data_bytes m)) = size m * sizeof_value.
Proof.
  unfold data_bytes, size. induction m as [|value m IH]; [done|].
  change (mjoin (object_bytes <$> value :: m))
    with (object_bytes value ++ mjoin (object_bytes <$> m)).
  rewrite length_app, Nat2N.inj_add, object_bytes_length, IH.
  cbn [length]. lia.
Qed.

(** *** The claims *)

(** C1 (as amended).  For every identifier [id] that the map has room
    for (the slot is there already, or the growth to [id + 1] slots goes
    through: [id + 1] is within [max_size()] and the storage is to be
    had) and every value other than the sentinel, [set id value]
    returns, and [get id] on the map it leaves returns [value]. *)
Theorem get_after_set id value m :
  room_for id m →
  value ≠ empty_value →
  ∃ m', set id value m = Some (Normal m') ∧ get id m' = Ok value.
Proof.
  intros Hroom Hvalue. eexists. split; [by apply set_returns|].
  apply get_Ok. split; [|done].
  apply list_lookup_insert_eq.
  destruct (N.leb_spec (size m) id) as [Hle|Hgt].
  - rewrite length_resize. lia.
  - unfold size in Hgt. lia.
Qed.

(** C3 (as amended).  Where the value-initialised element is the
    sentinel, and for every identifier [id] for which the growth to
    [id + 1] slots goes through: [set id value] on the empty dense map
    returns and leaves a map of size [id + 1] in which [get j] fails
    with [NotFound j] for every [j < id]. *)
Theorem set_on_empty_grows id value :
  default_value = empty_value →
  grows (id + 1) →
  ∃ m', set id value [] = Some (Normal m') ∧
        size m' = id + 1 ∧
        ∀ j, j < id → get j m' = NotFound j.
Proof.
  intros Hdefault Hgrows. eexists.
  split; [apply set_returns; by right|].
  replace (size [] <=? id) with true by (symmetry; by apply N.leb_le, N.le_0_l).
  split.
  - unfold size. rewrite length_insert, length_resize. lia.
  - intros j Hj. apply get_NotFound. right.
    rewrite list_lookup_insert_ne by lia.
    rewrite resize_nil, lookup_replicate_2 by lia.
    by rewrite Hdefault.
Qed.

(** The hazard behind the condition of C3: where the value-initialised
    element is not the sentinel, the slots below [id] that growth has
    filled are reported as present. *)
Lemma set_on_empty_gap_present id value j :
  default_value ≠ empty_value →
  grows (id + 1) →
  j < id →
  ∃ m', set id value [] = Some (Normal m') ∧ get j m' = Ok default_value.
Proof.
  intros Hdefault Hgrows Hj. eexists.
  split; [apply set_returns; by right|].
  replace (size [] <=? id) with true by (symmetry; by apply N.leb_le, N.le_0_l).
  apply get_Ok. split; [|done].
  rewrite list_lookup_insert_ne by lia.
  by rewrite resize_nil, lookup_replicate_2 by lia.
Qed.

(** C4.  [get id] fails with [NotFound id] exactly when [id] is not
    below [size()] or the slot at offset [id] holds the sentinel; it
    returns [value] exactly when the slot at offset [id] holds [value]
    and [value] is not the sentinel; and an error of [get id] is never
    anything but [NotFound id]. *)
Theorem get_failure_characterisation id m :
  (get id m = NotFound id ↔
     size m ≤ id ∨ m !! N.to_nat id = Some empty_value) ∧
  (∀ value, get id m = Ok value ↔
     m !! N.to_nat id = Some value ∧ value ≠ empty_value) ∧
  (∀ value, id < size m → m !! N.to_nat id = Some value →
     value ≠ empty_value → get id m = Ok value) ∧
  (∀ id', get id m = NotFound id' → id' = id).
Proof.
  split; [apply get_NotFound|].
  split; [intros value; apply get_Ok|].
  split; [|intros id'; apply get_NotFound_id].
  intros value _ Hat Hvalue. by apply get_Ok.
Qed.

(** C8.  For a dense map of [n = size()] elements whose buffer lies in
    the address space ([n * sizeof(TValue)] fits [size_t]), the byte
    image of the elements in index order has exactly [n * sizeof(TValue)]
    bytes.  [dump_as_array] either fails or leaves the sink with exactly
    that image appended; it does the latter on every device that takes
    the bytes of the image, in however many requests, and it fails on
    every device that reports an error or answers no more before it has
    taken them. *)
Theorem dump_as_array_writes_image `{!Layout TValue} fd m :
  size m * sizeof_value < 2 ^ word_bits →
  byte_size m = size m * sizeof_value ∧
  N.of_nat (length (data_bytes m)) = size m * sizeof_value ∧
  (dump_as_array fd m = WriteFailed ∨
   ∃ fd', dump_as_array fd m = Written fd' ∧
          written fd' = written fd ++ data_bytes m) ∧
  (∀ counts rest,
     device fd = (Some <$> counts) ++ rest →
     (length (data_bytes m) ≤ sum_list counts)%nat →
     ∃ rest', dump_as_array fd m =
              Written (Sink (written fd ++ data_bytes m) rest')) ∧
  (∀ counts rest,
     device fd = (Some <$> counts) ++ None :: rest ∨
     device fd = Some <$> counts →
     (sum_list counts < length (data_bytes m))%nat →
     dump_as_array fd m = WriteFailed).
Proof.
  intros Hfits.
  assert (byte_size m = size m * sizeof_value) as Hsize
    by (by apply wrap_small).
  assert (take (N.to_nat (byte_size m)) (data_bytes m) = data_bytes m)
    as Htake.
  { apply take_ge. rewrite Hsize, <- data_bytes_length. lia. }
  split; [done|]. split; [apply data_bytes_length|].
  unfold dump_as_array, reliable_write. rewrite Htake.
  split; [|split].
  - destruct (reliable_write_loop _ _ _) as [fd'|] eqn:Hrun; [right|by left].
    exists fd'. split; [done|]. by eapply reliable_write_loop_written.
  - intros counts rest -> Hlen. by apply reliable_write_loop_takes.
  - intros counts rest [-> | ->] Hlen;
      by apply reliable_write_loop_fails.
Qed.

End facts.
End DenseMapFacts.

(** ** std::lower_bound *)

Section lower_bound_facts.
Context {A : Type} (v : list A) (value : A) (comp : A → A → bool).

Local Open Scope nat_scope.

(** The loop stays inside of the range it was given, whatever the
    range holds. *)
Lemma lower_bound_loop_range first count :
  first ≤ lower_bound_loop v value comp first count ≤ first + count.
Proof.
  funelim (lower_bound_loop v value comp first count); try lia.
  - pose proof (Nat.div_lt (S n) 2). lia.
  - pose proof (Nat.div_lt (S n) 2). lia.
Qed.

Lemma lower_bound_range : lower_bound v value comp ≤ length v.
Proof.
  unfold lower_bound.
  pose proof (lower_bound_loop_range 0 (length v)). lia.
Qed.

(** The requirement of [std::lower_bound]: the range is partitioned,
    the elements that [comp] puts before [value] come first. *)
Hypothesis partitioned : ∀ i j x y,
  i ≤ j → v !! i = Some x → v !! j = Some y →
  comp y value = true → comp x value = true.

Lemma lower_bound_loop_partition_point first count :
  first + count ≤ length v →
  (∀ i x, i < first → v !! i = Some x → comp x value = true) →
  (∀ i x, first + count ≤ i → v !! i = Some x → comp x value = false) →
  (∀ i x, i < lower_bound_loop v value comp first count →
          v !! i = Some x → comp x value = true) ∧
  (∀ i x, lower_bound_loop v value comp first count ≤ i →
          v !! i = Some x → comp x value = false).
Proof.
  funelim (lower_bound_loop v value comp first count);
    intros Hrange Hbelow Habove.
  - split; [done|]. intros i x Hi. apply Habove. lia.
  - pose proof (Nat.div_lt (S n) 2).
    match goal with Hnone : _ !! _ = None |- _ =>
      apply lookup_ge_None in Hnone end.
    lia.
  - pose proof (Nat.div_lt (S n) 2).
    match goal with IH : _ → _ → _ → _ ∧ _ |- _ => apply IH end.
    + lia.
    + intros i y Hi Hy.
      apply (partitioned i (first + S n / 2) y x); [lia|done..].
    + intros i y Hi. apply Habove. lia.
  - pose proof (Nat.div_lt (S n) 2).
    match goal with IH : _ → _ → _ → _ ∧ _ |- _ => apply IH end.
    + lia.
    + done.
    + intros i y Hi Hy. destruct (comp y value) eqn:Hcomp; [|done].
      assert (comp x value = true) as Hx; [|congruence].
      apply (partitioned (first + S n / 2) i x y); [lia|done..].
Qed.

(** On a partitioned range [std::lower_bound] returns the partition
    point. *)
Lemma lower_bound_partition_point :
  (∀ i x, i < lower_bound v value comp →
          v !! i = Some x → comp x value = true) ∧
  (∀ i x, lower_bound v value comp ≤ i →
          v !! i = Some x → comp x value = false).
Proof.
  apply lower_bound_loop_partition_point; [done|lia|].
  intros i x Hi Hx. apply lookup_lt_Some in Hx. lia.
Qed.

End lower_bound_facts.

(** ** VectorBasedSparseMap *)

Module SparseMapFacts.
Import VectorBasedSparseMap.

Section facts.
Context {TValue : Type} {VT : ValueType TValue}.
Implicit Types (id : N) (value : TValue) (a b c : N * TValue).
Implicit Types (m sorted calls : list (N * TValue)).

(** *** The order of the elements *)

Lemma element_le_spec a b :
  element_le a b ↔ a.1 < b.1 ∨ (a.1 = b.1 ∧ value_lt b.2 a.2 = false).
Proof.
  unfold element_le, element_lt.
  rewrite orb_false_iff, andb_false_iff, negb_false_iff.
  rewrite N.ltb_ge, N.ltb_lt. split.
  - intros [Hle [Hlt|Hvalue]]; [left; lia|].
    destruct (N.eq_dec a.1 b.1); [by right|left; lia].
  - intros [Hlt|[Heq Hvalue]]; (split; [lia|]); [left; lia|by right].
Qed.

Lemma element_le_first a b : element_le a b → a.1 ≤ b.1.
Proof. rewrite element_le_spec. lia. Qed.

Section compare.
Context `{!Compare TValue}.

Lemma value_lt_asym x y : value_lt x y = true → value_lt y x = false.
Proof.
  intros Hxy. destruct (value_lt y x) eqn:Hyx; [|done].
  by rewrite <- (value_lt_irrefl x), (value_lt_trans x y x).
Qed.

Lemma value_lt_neg_trans x y z :
  value_lt y x = false → value_lt z y = false → value_lt z x = false.
Proof.
  intros Hyx Hzy. destruct (value_lt z x) eqn:Hzx; [|done].
  destruct (value_lt x y) eqn:Hxy.
  { by rewrite <- Hzy, (value_lt_trans z x y). }
  destruct (value_lt y z) eqn:Hyz.
  { by rewrite <- Hyx, (value_lt_trans y z x). }
  by rewrite <- Hzx, (value_lt_incomparable_trans z y x).
Qed.

#[local] Instance element_le_total : Total element_le.
Proof.
  intros a b. rewrite !element_le_spec.
  destruct (N.lt_trichotomy a.1 b.1) as [Hlt|[Heq|Hgt]];
    [by left; left| |by right; left].
  destruct (value_lt b.2 a.2) eqn:Hba; [right|left]; right.
  - split; [done|]. by apply value_lt_asym.
  - done.
Qed.

#[local] Instance element_le_trans : Transitive element_le.
Proof.
  intros a b c. rewrite !element_le_spec.
  intros [Hab|[Hab Hvab]] [Hbc|[Hbc Hvbc]];
    [left; lia..|right].
  split; [congruence|]. by apply (value_lt_neg_trans _ b.2).
Qed.

Lemma sort_sorted m : StronglySorted element_le (sort m).
Proof. apply StronglySorted_merge_sort; apply _. Qed.
End compare.

#[local] Instance element_le_antisym `{!TotalCompare TValue} :
  AntiSymm (=) element_le.
Proof.
  intros [id1 value1] [id2 value2]. rewrite !element_le_spec. simpl.
  intros [Hlt|[-> Hv21]] [Hgt|[Heq Hv12]]; try lia.
  f_equal. by apply value_lt_connected.
Qed.

(** *** sort *)

Lemma sort_permutation m : sort m ≡ₚ m.
Proof. apply merge_sort_Permutation. Qed.

(** The merge sort delivers what [std::sort] promises, ... *)
Lemma sort_meets_std_sort `{!Compare TValue} m :
  std_sort_result m (sort m).
Proof. split; [apply sort_permutation|apply sort_sorted]. Qed.

(** ... and where [operator<] of [TValue] is total, nothing else does:
    the result of [std::sort] is then determined by its input. *)
Lemma std_sort_result_unique `{!TotalCompare TValue} m sorted :
  std_sort_result m sorted → sorted = sort m.
Proof.
  intros [Hperm Hsorted].
  apply (StronglySorted_unique element_le); [done|apply sort_sorted|].
  by rewrite Hperm, sort_permutation.
Qed.

Lemma sorted_lookup_first sorted i j a b :
  StronglySorted element_le sorted →
  (i ≤ j)%nat → sorted !! i = Some a → sorted !! j = Some b →
  a.1 ≤ b.1.
Proof.
  intros Hsorted. revert i j.
  induction Hsorted as [|c sorted Hsorted IH Hall]; intros i j Hij Hi Hj.
  { by rewrite lookup_nil in Hi. }
  destruct i as [|i], j as [|j]; simpl in Hi, Hj.
  - replace b with a by congruence. lia.
  - replace a with c by congruence. apply element_le_first.
    rewrite Forall_forall in Hall. apply Hall.
    by apply (list_elem_of_lookup_2 _ j).
  - lia.
  - apply (IH i j); [lia|done..].
Qed.

(** *** set *)

Lemma set_all_app calls m : set_all calls m = m ++ calls.
Proof.
  revert m. induction calls as [|[id value] calls IH]; intros m.
  - by rewrite app_nil_r.
  - unfold set_all in *. simpl. rewrite IH. unfold set.
    by rewrite <- app_assoc.
Qed.

(** *** get *)

(** What [get] returns was stored, under the identifier asked for. *)
Lemma get_Ok_stored id value m :
  get id m = Ok value → (id, value) ∈ m.
Proof.
  unfold get.
  destruct (m !! lower_bound m (id, empty_value) first_lt)
    as [[id' value']|] eqn:Hat; [|done].
  destruct (decide ((id', value').1 ≠ id)) as [|Heq]; [done|].
  intros [= <-]. apply dec_stable in Heq. simpl in Heq. subst id'.
  by apply list_elem_of_lookup_2 in Hat.
Qed.

(** [get] on a vector in the order of [std::sort], for an identifier
    that is stored exactly once. *)
Lemma get_sorted id value sorted :
  StronglySorted element_le sorted →
  NoDup sorted.*1 →
  (id, value) ∈ sorted →
  get id sorted = Ok value.
Proof.
  intros Hsorted Hnodup [k Hk]%list_elem_of_lookup_1.
  destruct (lower_bound_partition_point sorted (id, empty_value) first_lt)
    as [Hbelow Habove].
  { intros i j x y Hij Hx Hy. unfold first_lt. rewrite !N.ltb_lt.
    pose proof (sorted_lookup_first sorted i j x y Hsorted Hij Hx Hy).
    lia. }
  remember (lower_bound sorted (id, empty_value) first_lt) as result
    eqn:Hresult.
  assert (result ≤ k)%nat as Hle.
  { destruct (decide (result ≤ k)%nat) as [|Hgt]; [done|].
    specialize (Hbelow k (id, value)). unfold first_lt in Hbelow.
    simpl in Hbelow. rewrite N.ltb_irrefl in Hbelow.
    discriminate Hbelow; [lia|done]. }
  destruct (lookup_lt_is_Some_2 sorted result) as [found Hfound].
  { apply lookup_lt_Some in Hk. lia. }
  assert (found.1 = id) as Hfirst.
  { pose proof (sorted_lookup_first sorted result k found (id, value)
                  Hsorted Hle Hfound Hk) as Hup.
    specialize (Habove result found (Nat.le_refl _) Hfound).
    unfold first_lt in Habove. apply N.ltb_ge in Habove.
    simpl in *. lia. }
  assert (result = k) as Hposition.
  { apply (NoDup_lookup sorted.*1 result k id); [done|..].
    - by rewrite list_lookup_fmap, Hfound; simpl; f_equal.
    - by rewrite list_lookup_fmap, Hk. }
  unfold get. rewrite <- Hresult, Hposition, Hk. simpl.
  destruct (decide (id ≠ id)); done.
Qed.

Lemma get_NotFound_same_id id id' m : get id m = NotFound id' → id' = id.
Proof.
  unfold get.
  destruct (m !! lower_bound m (id, empty_value) first_lt) as [found|];
    [|congruence].
  destruct (decide (found.1 ≠ id)); congruence.
Qed.

(** [get] after any run of [std::sort] that keeps its promise. *)
Lemma get_after_std_sort m sorted id value :
  std_sort_result m sorted →
  NoDup m.*1 →
  (id, value) ∈ m →
  get id sorted = Ok value.
Proof.
  intros [Hperm Hsorted] Hnodup Hin.
  apply get_sorted; [done|by rewrite Hperm..].
Qed.

(** *** The claims *)

(** C7.  [set id value] appends the pair [(id, value)] at the end of the
    stored sequence: the pairs stored before keep their positions, the
    new pair takes the position after them and [size()] grows by one,
    whether or not a pair with the identifier [id] is already stored
    (such a pair stays). *)
Theorem set_appends id value m :
  set id value m = m ++ [(id, value)] ∧
  size (set id value m) = size m + 1 ∧
  (∀ i, (i < length m)%nat → set id value m !! i = m !! i) ∧
  set id value m !! length m = Some (id, value) ∧
  (∀ value', (id, value') ∈ m → (id, value') ∈ set id value m).
Proof.
  unfold set, size. repeat split.
  - rewrite length_app. simpl. lia.
  - intros i Hi. by apply lookup_app_l.
  - by rewrite list_lookup_middle.
  - intros value' Hin. apply elem_of_app. by left.
Qed.

(** C10.  [sort] permutes the stored pairs: the sequence after the call
    has the same pairs with the same multiplicities as the one before,
    and [size()] is unchanged. *)
Theorem sort_preserves_contents m :
  sort m ≡ₚ m ∧ size (sort m) = size m.
Proof.
  split; [apply sort_permutation|].
  unfold size. by rewrite sort_permutation.
Qed.


(** C2.  After a batch of [set] calls with pairwise distinct
    identifiers on the empty map and a [sort], [get] returns for the
    identifier of each call the value of that call. *)
Theorem get_after_sort `{!Compare TValue} calls i id value :
  NoDup calls.*1 →
  calls !! i = Some (id, value) →
  get id (sort (set_all calls [])) = Ok value.
Proof.
  intros Hnodup Hcall. rewrite set_all_app, app_nil_l.
  apply (get_after_std_sort calls); [apply sort_meets_std_sort|done|].
  by apply list_elem_of_lookup_2 in Hcall.
Qed.

(** C6.  After a batch of [set] calls on the empty map and a [sort],
    [get id] fails with [NotFound id] for every identifier [id] that
    none of the calls was made with. *)
Theorem get_never_set calls id :
  id ∉ calls.*1 →
  get id (sort (set_all calls [])) = NotFound id.
Proof.
  intros Hfresh. rewrite set_all_app, app_nil_l.
  destruct (get id (sort calls)) as [value|id'] eqn:Hget.
  - apply get_Ok_stored in Hget. rewrite sort_permutation in Hget.
    destruct Hfresh. apply list_elem_of_fmap. by exists (id, value).
  - by apply get_NotFound_same_id in Hget as ->.
Qed.

End facts.
End SparseMapFacts.

(** ** The sentinel as a result of [get] *)

Section sentinel.
Context {TValue : Type} {VT : ValueType TValue}.

(** C9.  A value that the dense [get] returns is never the sentinel.
    The sparse [get] gives no such guarantee: it returns the sentinel
    where the sentinel was stored. *)
Theorem dense_get_never_sentinel :
  (∀ id (m : list TValue) value,
     VectorBasedDenseMap.get id m = Ok value → value ≠ empty_value) ∧
  (∀ id,
     VectorBasedSparseMap.get id
       (VectorBasedSparseMap.sort
          (VectorBasedSparseMap.set id empty_value [])) =
     Ok empty_value).
Proof.
  split.
  - intros id m value Hget. by apply DenseMapFacts.get_Ok in Hget as [_ ?].
  - intros id.
    replace (VectorBasedSparseMap.sort _) with [(id, empty_value)].
    + apply SparseMapFacts.get_sorted.
      * repeat constructor.
      * apply NoDup_singleton.
      * by apply list_elem_of_singleton.
    + symmetry. apply Permutation_singleton_r.
      apply SparseMapFacts.sort_permutation.
Qed.
End sentinel.

(** * The theorems at the example value types *)

Module DenseExamples.
Import VectorBasedDenseMap.

(** With the sentinel [0xFFFFFFFF] of the spec's example. *)
Section max_sentinel.
#[local] Existing Instance uint32_max_sentinel.
#[local] Existing Instance example_storage.

(** The spec's example: [set(5, 42)] on the empty map. *)
Lemma get_after_set_witness :
  room_for 5 ([] : list N) ∧
  42 ≠ empty_value ∧
  ∃ m', set 5 42 [] = Some (Normal m') ∧ get 5 m' = Ok 42.
Proof.
  assert (room_for 5 ([] : list N)) as Hroom by (right; split; [discriminate|reflexivity]).
  split; [exact Hroom|]. split; [discriminate|].
  apply (DenseMapFacts.get_after_set 5 42 [] Hroom). discriminate.
Defined.

(** C1 as stated fails where the map cannot grow to hold the slot.  At
    the largest identifier [id+1] wraps to [0], [resize(0)] empties the
    vector and [m_vector[id] = value] is a store outside of it.  One
    below, [resize(id+1)] is asked for more than [max_size()] slots and
    throws [std::length_error]; where the storage is not to be had it
    throws [std::bad_alloc].  Nothing is stored in either case, and
    there is no map for [get] to look into. *)
Lemma get_after_set_fails_at_max :
  42 ≠ empty_value ∧
  set (2 ^ word_bits - 1) 42 [] = None ∧
  set (2 ^ word_bits - 2) 42 [] = Some (Throws length_error) ∧
  set (2 ^ 40) 42 [] = Some (Throws bad_alloc) ∧
  (¬ ∃ m', set (2 ^ word_bits - 1) 42 [] = Some (Normal m') ∧
           get (2 ^ word_bits - 1) m' = Ok 42) ∧
  (¬ ∃ m', set (2 ^ word_bits - 2) 42 [] = Some (Normal m') ∧
           get (2 ^ word_bits - 2) m' = Ok 42).
Proof.
  split; [discriminate|]. split; [reflexivity|]. split; [reflexivity|].
  split; [reflexivity|].
  split; intros (m' & Hset & _); vm_compute in Hset; discriminate Hset.
Qed.

(** The spec's example at its own value type: the slots below 5 hold
    the value-initialised [0], not the sentinel, and [get] returns
    them. *)
Lemma set_on_empty_gap_present_example :
  ∃ m', set 5 42 [] = Some (Normal m') ∧ get 0 m' = Ok 0.
Proof.
  change 0 with default_value at 2.
  apply (DenseMapFacts.set_on_empty_gap_present 5 42 0);
    [discriminate|split; [discriminate|reflexivity]|reflexivity].
Qed.

Lemma get_failure_characterisation_witness :
  get 1 [7; 0xFFFFFFFF; 9] = NotFound 1 ∧
  get 3 [7; 0xFFFFFFFF; 9] = NotFound 3 ∧
  get 2 [7; 0xFFFFFFFF; 9] = Ok 9.
Proof.
  split; [|split].
  - apply (DenseMapFacts.get_failure_characterisation
             1 [7; 0xFFFFFFFF; 9]).
    right. reflexivity.
  - apply (DenseMapFacts.get_failure_characterisation
             3 [7; 0xFFFFFFFF; 9]).
    left. vm_compute. discriminate.
  - apply (DenseMapFacts.get_failure_characterisation
             2 [7; 0xFFFFFFFF; 9]).
    + reflexivity.
    + reflexivity.
    + discriminate.
Defined.

Lemma dense_get_never_sentinel_witness :
  get 2 [7; 0xFFFFFFFF; 9] = Ok 9 ∧ 9 ≠ empty_value.
Proof.
  split; [reflexivity|].
  apply (proj1 dense_get_never_sentinel 2 [7; 0xFFFFFFFF; 9] 9).
  reflexivity.
Defined.
End max_sentinel.

(** With the value-initialised [0] as the sentinel. *)
Section zero_sentinel.
#[local] Existing Instance uint32_zero_sentinel.
#[local] Existing Instance uint32_zero_sentinel_layout.
#[local] Existing Instance example_storage.

Lemma set_on_empty_grows_witness :
  default_value = empty_value ∧
  grows (5 + 1) ∧
  ∃ m', set 5 42 [] = Some (Normal m') ∧
        size m' = 5 + 1 ∧
        ∀ j, j < 5 → get j m' = NotFound j.
Proof.
  assert (grows (5 + 1)) as Hgrows by (split; [discriminate|reflexivity]).
  split; [reflexivity|]. split; [exact Hgrows|].
  apply (DenseMapFacts.set_on_empty_grows
           (VT := uint32_zero_sentinel) 5 42 eq_refl Hgrows).
Defined.

(** C3 as stated fails where the empty map cannot grow to [id + 1]
    slots, also where the value-initialised element is the sentinel:
    at the largest identifier [set] is a store outside of the emptied
    vector, one below [resize] throws [std::length_error], and where
    the storage is not to be had it throws [std::bad_alloc].  No map of
    size [id + 1] is left. *)
Lemma set_on_empty_fails_at_max :
  default_value = empty_value ∧
  set (2 ^ word_bits - 1) 42 [] = None ∧
  set (2 ^ word_bits - 2) 42 [] = Some (Throws length_error) ∧
  set (2 ^ 40) 42 [] = Some (Throws bad_alloc) ∧
  (¬ ∃ m', set (2 ^ word_bits - 1) 42 [] = Some (Normal m') ∧
           size m' = 2 ^ word_bits - 1 + 1) ∧
  (¬ ∃ m', set (2 ^ word_bits - 2) 42 [] = Some (Normal m') ∧
           size m' = 2 ^ word_bits - 2 + 1).
Proof.
  split; [reflexivity|]. split; [reflexivity|]. split; [reflexivity|].
  split; [reflexivity|].
  split; intros (m' & Hset & _); vm_compute in Hset; discriminate Hset.
Qed.

(** Two values, eight bytes, written to a device that takes three
    bytes, then none, then the rest. *)
Lemma dump_as_array_writes_image_witness :
  size [1; 258] * sizeof_value < 2 ^ word_bits ∧
  byte_size [1; 258] = 8 ∧
  ∃ rest',
    dump_as_array (Sink [x2a] [Some 3; Some 0; Some 100]%nat) [1; 258] =
    Written (Sink [x2a; x01; x00; x00; x00; x02; x01; x00; x00] rest').
Proof.
  split; [reflexivity|].
  destruct (DenseMapFacts.dump_as_array_writes_image
              (Sink [x2a] [Some 3; Some 0; Some 100]%nat) [1; 258])
    as (Hsize & _ & _ & Htakes & _).
  - reflexivity.
  - split; [exact Hsize|].
    assert (length (data_bytes [1%N; 258%N]) ≤ sum_list [3; 0; 100])%nat
      as Hlen by (vm_compute; lia).
    exact (Htakes [3; 0; 100]%nat [] eq_refl Hlen).
Defined.

(** The same eight bytes on a device that reports an error after
    three. *)
Lemma dump_as_array_fails_example :
  dump_as_array (Sink [x2a] [Some 3%nat; None; Some 100%nat]) [1; 258] =
  WriteFailed.
Proof.
  destruct (DenseMapFacts.dump_as_array_writes_image
              (Sink [x2a] [Some 3%nat; None; Some 100%nat]) [1; 258])
    as (_ & _ & _ & _ & Hfails); [reflexivity|].
  apply (Hfails [3%nat] [Some 100%nat]); [by left|vm_compute; lia].
Qed.
End zero_sentinel.

End DenseExamples.

Module SparseExamples.
Import VectorBasedSparseMap.

Section zero_sentinel.
#[local] Existing Instance uint32_zero_sentinel.
#[local] Existing Instance uint32_zero_sentinel_compare.
#[local] Existing Instance uint32_zero_sentinel_total.

(** A second pair for the identifier 3 is appended, the first stays. *)
Lemma set_appends_witness :
  set 3 7 [(5, 1); (3, 2)] = [(5, 1); (3, 2); (3, 7)] ∧
  size (set 3 7 [(5, 1); (3, 2)]) = size [(5, 1); (3, 2)] + 1.
Proof.
  split.
  - exact (proj1 (SparseMapFacts.set_appends 3 7 [(5, 1); (3, 2)])).
  - exact (proj1 (proj2
             (SparseMapFacts.set_appends 3 7 [(5, 1); (3, 2)]))).
Defined.


Lemma get_after_sort_witness :
  NoDup ([(5, 1); (3, 2); (9, 0)] : list (N * N)).*1 ∧
  get 3 (sort (set_all [(5, 1); (3, 2); (9, 0)] [])) = Ok 2.
Proof.
  assert (NoDup ([(5, 1); (3, 2); (9, 0)] : list (N * N)).*1) as Hnodup
    by (apply (bool_decide_unpack _); vm_compute; exact I).
  split; [exact Hnodup|].
  apply (SparseMapFacts.get_after_sort
           [(5, 1); (3, 2); (9, 0)] 1%nat 3 2 Hnodup).
  reflexivity.
Defined.

Lemma get_never_set_witness :
  (4 ∉ ([(5, 1); (3, 2); (9, 0)] : list (N * N)).*1) ∧
  get 4 (sort (set_all [(5, 1); (3, 2); (9, 0)] [])) = NotFound 4.
Proof.
  assert (4 ∉ ([(5, 1); (3, 2); (9, 0)] : list (N * N)).*1) as Hfresh
    by (apply (bool_decide_unpack _); vm_compute; exact I).
  split; [exact Hfresh|].
  apply (SparseMapFacts.get_never_set [(5, 1); (3, 2); (9, 0)] 4 Hfresh).
Defined.

(** Why the caller has to [sort] before it queries: on the unsorted
    vector the search passes the stored identifier by. *)
Lemma get_before_sort_misses :
  get 3 (set_all [(5, 1); (3, 2)] []) = NotFound 3 ∧
  get 3 (sort (set_all [(5, 1); (3, 2)] [])) = Ok 2.
Proof. split; reflexivity. Qed.

End zero_sentinel.

(** With values that [operator<] orders by their first field only. *)
Section by_first.
#[local] Existing Instance by_first.

End by_first.

End SparseExamples.

(** * Further properties *)

(** ** VectorBasedDenseMap: what [set] does to the whole vector *)

Module DenseMapUpdates.
Import VectorBasedDenseMap.

Section updates.
Context {TValue : Type} {VT : ValueType TValue} {ST : Storage}.
Implicit Types (id j : N) (value : TValue) (m : list TValue).
Implicit Types (calls : list (N * TValue)).

Lemma set_length id value m m' :
  set id value m = Some (Normal m') →
  length m' = Nat.max (length m) (S (N.to_nat id)).
Proof.
  intros ->%DenseMapFacts.set_Normal. rewrite length_insert.
  destruct (N.leb_spec (size m) id) as [Hle|Hgt]; unfold size in *.
  - rewrite length_resize. lia.
  - lia.
Qed.

(** Every slot of the vector that a returning [set] leaves: the slot
    written, the slots that were there, the slots that growth has
    added. *)
Lemma set_lookup id value m m' (i : nat) :
  set id value m = Some (Normal m') →
  m' !! i =
    if decide (i = N.to_nat id) then Some value
    else if decide (i < length m)%nat then m !! i
    else if decide (i < N.to_nat id)%nat then Some default_value
    else None.
Proof.
  intros ->%DenseMapFacts.set_Normal.
  destruct (N.leb_spec (size m) id) as [Hle|Hgt]; unfold size in *.
  - destruct (decide (i = N.to_nat id)) as [->|Hne].
    { apply list_lookup_insert_eq. rewrite length_resize. lia. }
    rewrite list_lookup_insert_ne by done.
    destruct (decide (i < length m)%nat).
    { apply lookup_resize; lia. }
    destruct (decide (i < N.to_nat id)%nat).
    { apply lookup_resize_new; lia. }
    apply lookup_resize_old. lia.
  - destruct (decide (i = N.to_nat id)) as [->|Hne].
    { apply list_lookup_insert_eq. lia. }
    rewrite list_lookup_insert_ne by done.
    destruct (decide (i < length m)%nat); [done|].
    destruct (decide (i < N.to_nat id)%nat); [lia|].
    apply lookup_ge_None. lia.
Qed.

Lemma get_ext j m1 m2 :
  m1 !! N.to_nat j = m2 !! N.to_nat j → get j m1 = get j m2.
Proof. unfold get. by intros ->. Qed.

Lemma set_sequence_snoc calls id value m :
  set_sequence (calls ++ [(id, value)]) m =
  and_then (set_sequence calls m) (set id value).
Proof. unfold set_sequence. by rewrite foldl_app. Qed.

Lemma set_returns_some id value m :
  room_for id m → ∃ m', set id value m = Some (Normal m').
Proof. intros Hroom. rewrite (DenseMapFacts.set_returns _ _ _ Hroom). eauto. Qed.

(** A map that has room for a slot keeps it when it grows. *)
Lemma room_for_set id value m m' j :
  set id value m = Some (Normal m') → room_for j m → room_for j m'.
Proof.
  intros Hlength%set_length [Hlt|Hgrows]; [left|by right].
  unfold size in *. lia.
Qed.

(** How [set] ends when it does not return does not depend on the
    value. *)
Lemma set_not_Normal id value1 value2 m :
  (∀ m', set id value1 m ≠ Some (Normal m')) →
  set id value2 m = set id value1 m.
Proof.
  unfold set.
  destruct (if size m <=? id then resize (wrap (id + 1)) m else Normal m)
    as [m1|e]; [|done].
  destruct (id <? size m1); [|done].
  intros Hnot. by destruct (Hnot (<[N.to_nat id := value1]> m1)).
Qed.

(** The slots after a batch of [set] calls on the empty map. *)
Lemma set_sequence_slots calls :
  Forall (λ call, grows (call.1 + 1)) calls →
  ∃ m, set_sequence calls [] = Some (Normal m) ∧
    (∀ call, call ∈ calls → call.1 < size m) ∧
    (calls = [] → m = []) ∧
    (calls ≠ [] → ∃ call, call ∈ calls ∧ size m = call.1 + 1) ∧
    (∀ before id value after,
       calls = before ++ (id, value) :: after → id ∉ after.*1 →
       m !! N.to_nat id = Some value) ∧
    (∀ id, id ∉ calls.*1 →
       m !! N.to_nat id = None ∨ m !! N.to_nat id = Some default_value).
Proof.
  induction calls as [|[id0 value0] calls IH] using rev_ind; intros Hcalls.
  { exists []. split; [done|]. split; [by intros call ?%elem_of_nil|].
    split; [done|]. split; [done|]. split; [|by left].
    intros [|? before] ????; discriminate. }
  apply Forall_app in Hcalls as [Hcalls Hid0].
  rewrite Forall_singleton in Hid0. simpl in Hid0.
  destruct (IH Hcalls) as (m & Hm & Hbelow & Hnil & Hsize & Hlast & Hfresh).
  destruct (set_returns_some id0 value0 m) as [m' Hm']; [by right|].
  pose proof (set_length _ _ _ _ Hm') as Hlength.
  exists m'. split; [by rewrite set_sequence_snoc, Hm|].
  split; [|split; [|split; [|split]]].
  - intros call [Hin| ->%list_elem_of_singleton]%elem_of_app.
    + apply Hbelow in Hin. unfold size in *. lia.
    + unfold size. simpl. lia.
  - by intros ?%app_eq_nil%proj2.
  - intros _. destruct (N.leb_spec (size m) id0) as [Hle|Hgt].
    + exists (id0, value0). split; [apply elem_of_app; right; by left|].
      unfold size in *. simpl. lia.
    + destruct Hsize as (call & Hin & Hcall).
      { intros ->. rewrite (Hnil eq_refl) in Hgt. unfold size in Hgt.
        simpl in Hgt. lia. }
      exists call. split; [apply elem_of_app; by left|].
      unfold size in *. lia.
  - intros before id value after Hsplit Hafter.
    rewrite (set_lookup _ _ _ _ _ Hm').
    destruct after as [|[id1 value1] after _] using rev_ind.
    + apply app_inj_tail in Hsplit as [_ [= -> ->]].
      by rewrite decide_True.
    + rewrite app_comm_cons, app_assoc in Hsplit.
      apply app_inj_tail in Hsplit as [-> [= -> ->]].
      rewrite fmap_app, not_elem_of_app in Hafter.
      destruct Hafter as [Hafter Hne%not_elem_of_cons%proj1]. simpl in Hne.
      rewrite decide_False by (intros ?%(inj N.to_nat); done).
      assert (id < size m) as Hlt.
      { apply (Hbelow (id, value)), elem_of_app. right. by left. }
      rewrite decide_True by (unfold size in Hlt; lia).
      by apply (Hlast before id value after).
  - intros id Hid. rewrite fmap_app, not_elem_of_app in Hid.
    destruct Hid as [Hid Hne%not_elem_of_cons%proj1]. simpl in Hne.
    rewrite (set_lookup _ _ _ _ _ Hm').
    rewrite decide_False by (intros ?%(inj N.to_nat); done).
    destruct (decide (N.to_nat id < length m)%nat); [by apply Hfresh|].
    destruct (decide (N.to_nat id < N.to_nat id0)%nat); [by right|by left].
Qed.

(** *** One call of [set] *)

(** X1.  Where the map has room for the slot [id], [set id value]
    returns and leaves every slot other than [id] that the map already
    had as it was, and with it the result of [get] there. *)
Theorem set_keeps_other_slots id value m j :
  room_for id m →
  j ≠ id →
  j < size m →
  ∃ m', set id value m = Some (Normal m') ∧
        m' !! N.to_nat j = m !! N.to_nat j ∧
        get j m' = get j m.
Proof.
  intros Hroom Hne Hj.
  destruct (set_returns_some id value m Hroom) as [m' Hm']. exists m'.
  assert (m' !! N.to_nat j = m !! N.to_nat j) as Hslot.
  { rewrite (set_lookup _ _ _ _ _ Hm').
    rewrite decide_False by (intros ?%(inj N.to_nat); done).
    rewrite decide_True by (unfold size in Hj; lia). done. }
  split; [done|]. split; [done|]. by apply get_ext.
Qed.

(** X2.  Where the map has room for the slot [id], [set id value]
    leaves a map of size [max (size()) (id + 1)]: the map grows just far
    enough to hold the slot [id], and it never shrinks. *)
Theorem set_size id value m :
  room_for id m →
  ∃ m', set id value m = Some (Normal m') ∧
        size m' = N.max (size m) (id + 1).
Proof.
  intros Hroom. destruct (set_returns_some id value m Hroom) as [m' Hm'].
  exists m'. split; [done|].
  pose proof (set_length _ _ _ _ Hm'). unfold size. lia.
Qed.

(** X3.  The slots between the old size and [id] that a growth which
    goes through adds hold the value-initialised element: [get] there
    fails if that element is the sentinel and returns it otherwise.
    Beyond [id] and the old size, [get] fails. *)
Theorem set_new_slots id value m j :
  grows (id + 1) →
  size m ≤ j →
  j ≠ id →
  ∃ m', set id value m = Some (Normal m') ∧
        (j < id →
           m' !! N.to_nat j = Some default_value ∧
           get j m' = if decide (default_value = empty_value)
                      then NotFound j else Ok default_value) ∧
        (id < j → get j m' = NotFound j).
Proof.
  intros Hgrows Hj Hne.
  destruct (set_returns_some id value m) as [m' Hm']; [by right|].
  exists m'. split; [done|].
  pose proof (set_lookup id value m m' (N.to_nat j) Hm') as Hslot.
  rewrite decide_False in Hslot by (intros ?%(inj N.to_nat); done).
  rewrite decide_False in Hslot by (unfold size in Hj; lia).
  split; intros Hlt.
  - rewrite decide_True in Hslot by lia. split; [done|].
    unfold get. by rewrite Hslot.
  - rewrite decide_False in Hslot by lia.
    unfold get. by rewrite Hslot.
Qed.

(** X4.  Storing the sentinel removes the identifier: where the map has
    room for the slot [id], after [set id empty_value] [get id] fails
    with [NotFound id], whatever was stored at [id] before. *)
Theorem set_sentinel_removes id m :
  room_for id m →
  ∃ m', set id empty_value m = Some (Normal m') ∧ get id m' = NotFound id.
Proof.
  intros Hroom.
  destruct (set_returns_some id empty_value m Hroom) as [m' Hm'].
  exists m'. split; [done|].
  apply DenseMapFacts.get_NotFound. right.
  rewrite (set_lookup _ _ _ _ _ Hm'). by rewrite decide_True.
Qed.

(** X17.  The largest identifier cannot be set: [id+1] wraps to [0],
    the map is emptied by [resize(0)], and the store to [m_vector[id]]
    that follows lies outside of it. *)
Theorem set_largest_identifier value m :
  size m < 2 ^ word_bits →
  set (2 ^ word_bits - 1) value m = None.
Proof.
  intros Hfits. unfold set.
  replace (wrap (2 ^ word_bits - 1 + 1)) with 0 by done.
  destruct (N.leb_spec (size m) (2 ^ word_bits - 1)) as [Hle|Hgt]; [|lia].
  rewrite DenseMapFacts.resize_shrinks by apply N.le_0_l.
  by rewrite resize_0.
Qed.


(** X19.  [set id value] returns exactly where the map has room for
    the slot [id]: the slot is there, or the growth to [id + 1] slots
    goes through. *)
Theorem set_returns_iff id value m :
  (∃ m', set id value m = Some (Normal m')) ↔ room_for id m.
Proof.
  split.
  - intros [m' Hm']. by apply (DenseMapFacts.set_room id value m m').
  - apply set_returns_some.
Qed.

(** *** Two calls of [set] *)

(** X5.  A second [set] for the same identifier replaces the first:
    the two calls end as the second one alone would have, with the same
    map if they return. *)
Theorem set_overwrites id value1 value2 m :
  and_then (set id value1 m) (set id value2) = set id value2 m.
Proof.
  destruct (set id value1 m) as [[m1|e]|] eqn:Hm1; simpl.
  - pose proof (DenseMapFacts.set_room _ _ _ _ Hm1) as Hroom.
    destruct (set_returns_some id value2 m Hroom) as [m2 Hm2].
    destruct (set_returns_some id value2 m1) as [m12 Hm12].
    { by apply (room_for_set id value1 m). }
    rewrite Hm12, Hm2. do 2 f_equal.
    apply list_eq. intros i.
    rewrite (set_lookup _ _ _ _ i Hm12), (set_lookup _ _ _ _ i Hm1).
    rewrite (set_lookup _ _ _ _ i Hm2).
    rewrite (set_length _ _ _ _ Hm1).
    repeat case_decide; try done; lia.
  - rewrite <- Hm1. symmetry. apply set_not_Normal.
    intros m'. by rewrite Hm1.
  - rewrite <- Hm1. symmetry. apply set_not_Normal.
    intros m'. by rewrite Hm1.
Qed.


(** *** A batch of [set] calls on the empty map *)

(** X7.  After a batch of [set] calls on the empty map, each for an
    identifier that the map can grow to hold, the last call for an
    identifier decides what [get] returns for it: its value, or
    [NotFound] if that value is the sentinel.  Where the
    value-initialised element is the sentinel, [get] fails for every
    identifier that no call was made with. *)
Theorem get_after_set_sequence calls :
  Forall (λ call, grows (call.1 + 1)) calls →
  ∃ m, set_sequence calls [] = Some (Normal m) ∧
    (∀ before id value after,
       calls = before ++ (id, value) :: after → id ∉ after.*1 →
       get id m = if decide (value = empty_value)
                  then NotFound id else Ok value) ∧
    (default_value = empty_value →
     ∀ id, id ∉ calls.*1 → get id m = NotFound id).
Proof.
  intros Hcalls.
  destruct (set_sequence_slots calls Hcalls)
    as (m & Hm & _ & _ & _ & Hlast & Hfresh).
  exists m. split; [done|]. split.
  - intros before id value after Hsplit Hafter.
    unfold get. by rewrite (Hlast before id value after).
  - intros Hdefault id Hid. apply DenseMapFacts.get_NotFound.
    destruct (Hfresh id Hid) as [Hnone|Hsome].
    + left. apply lookup_ge_None in Hnone. unfold size. lia.
    + right. by rewrite Hsome, Hdefault.
Qed.

(** X8.  After a batch of [set] calls on the empty map, each for an
    identifier that the map can grow to hold, [size()] is one more than
    the largest identifier of the batch, and [0] for the empty batch. *)
Theorem size_after_set_sequence calls :
  Forall (λ call, grows (call.1 + 1)) calls →
  ∃ m, set_sequence calls [] = Some (Normal m) ∧
    (∀ call, call ∈ calls → call.1 + 1 ≤ size m) ∧
    (calls ≠ [] → ∃ call, call ∈ calls ∧ size m = call.1 + 1) ∧
    (calls = [] → size m = 0).
Proof.
  intros Hcalls.
  destruct (set_sequence_slots calls Hcalls)
    as (m & Hm & Hbelow & Hnil & Hsize & _ & _).
  exists m. split; [done|]. split; [|split; [done|]].
  - intros call Hin%Hbelow. lia.
  - by intros ->%Hnil.
Qed.

(** X9.  Where the growth to [id + 1] slots goes through,
    [set id value] on the empty map leaves [id] value-initialised slots
    followed by [value]: this is what an iteration from [begin()] to
    [end()] goes through. *)
Theorem set_on_empty_slots id value :
  grows (id + 1) →
  set id value [] =
    Some (Normal (replicate (N.to_nat id) default_value ++ [value])).
Proof.
  intros Hgrows.
  destruct (set_returns_some id value []) as [m' Hm']; [by right|].
  rewrite Hm'. do 2 f_equal. apply list_eq. intros i.
  rewrite (set_lookup _ _ _ _ i Hm'). simpl.
  destruct (decide (i = N.to_nat id)) as [->|Hne].
  { symmetry. apply list_lookup_middle. by rewrite length_replicate. }
  destruct (decide (i < N.to_nat id)%nat).
  - rewrite lookup_app_l by (rewrite length_replicate; lia).
    symmetry. by apply lookup_replicate_2.
  - symmetry. apply lookup_ge_None.
    rewrite length_app, length_replicate. simpl. lia.
Qed.

(** *** Memory accounting *)

(** X10.  For a map whose buffer lies in the address space,
    [used_memory()] is [size() * sizeof(TValue)], the same as
    [byte_size()], and it is the number of bytes of the image that
    [dump_as_array] hands to the writer. *)
Theorem used_memory_accounts `{!Layout TValue} m :
  size m * sizeof_value < 2 ^ word_bits →
  used_memory m = size m * sizeof_value ∧
  used_memory m = byte_size m ∧
  used_memory m = N.of_nat (length (data_bytes m)).
Proof.
  intros Hfits.
  assert (used_memory m = size m * sizeof_value) as Hused.
  { unfold used_memory. rewrite N.mul_comm. by apply DenseMapFacts.wrap_small. }
  split; [done|]. split.
  - unfold byte_size. by rewrite DenseMapFacts.wrap_small.
  - by rewrite DenseMapFacts.data_bytes_length.
Qed.

End updates.
End DenseMapUpdates.

(** ** VectorBasedSparseMap: duplicates and the order of insertion *)

Module SparseMapOrder.
Import VectorBasedSparseMap.

Section order.
Context {TValue : Type} {VT : ValueType TValue}.
Implicit Types (id : N) (value least : TValue) (a b : N * TValue).
Implicit Types (m sorted calls : list (N * TValue)).

Lemma sorted_lookup_le sorted (i j : nat) a b :
  StronglySorted element_le sorted →
  (i < j)%nat → sorted !! i = Some a → sorted !! j = Some b →
  element_le a b.
Proof.
  intros Hsorted. revert i j.
  induction Hsorted as [|c sorted Hsorted IH Hall]; intros i j Hij Hi Hj.
  { by rewrite lookup_nil in Hi. }
  destruct j as [|j]; [lia|]. simpl in Hj.
  destruct i as [|i]; simpl in Hi.
  - replace a with c by congruence.
    rewrite Forall_forall in Hall. apply Hall.
    by apply (list_elem_of_lookup_2 _ j).
  - apply (IH i j); [lia|done..].
Qed.

(** [get] on a vector in the order of [std::sort] stops at the first
    element with the identifier asked for. *)
Lemma get_sorted_first sorted id value :
  StronglySorted element_le sorted →
  (id, value) ∈ sorted →
  ∃ (first : nat) least,
    get id sorted = Ok least ∧
    sorted !! first = Some (id, least) ∧
    ∀ (k : nat) value', sorted !! k = Some (id, value') → (first ≤ k)%nat.
Proof.
  intros Hsorted [k Hk]%list_elem_of_lookup_1.
  destruct (lower_bound_partition_point sorted (id, empty_value) first_lt)
    as [Hbelow Habove].
  { intros i j x y Hij Hx Hy. unfold first_lt. rewrite !N.ltb_lt.
    pose proof (SparseMapFacts.sorted_lookup_first
                  sorted i j x y Hsorted Hij Hx Hy).
    lia. }
  remember (lower_bound sorted (id, empty_value) first_lt) as result
    eqn:Hresult.
  assert (∀ (k : nat) value',
            sorted !! k = Some (id, value') → (result ≤ k)%nat) as Hfirst.
  { intros k' value' Hk'.
    destruct (decide (result ≤ k')%nat) as [|Hgt]; [done|].
    specialize (Hbelow k' (id, value')). unfold first_lt in Hbelow.
    simpl in Hbelow. rewrite N.ltb_irrefl in Hbelow.
    discriminate Hbelow; [lia|done]. }
  pose proof (Hfirst k value Hk) as Hle.
  destruct (lookup_lt_is_Some_2 sorted result) as [[id' least] Hfound].
  { apply lookup_lt_Some in Hk. lia. }
  assert (id' = id) as ->.
  { pose proof (SparseMapFacts.sorted_lookup_first
                  sorted result k (id', least) (id, value)
                  Hsorted Hle Hfound Hk) as Hup.
    specialize (Habove result (id', least) (Nat.le_refl _) Hfound).
    unfold first_lt in Habove. apply N.ltb_ge in Habove.
    simpl in *. lia. }
  exists result, least. split; [|done].
  unfold get. rewrite <- Hresult, Hfound. simpl.
  destruct (decide (id ≠ id)); done.
Qed.

Lemma ascending_sorted calls :
  StronglySorted (λ a b, a.1 < b.1) calls →
  StronglySorted element_le calls.
Proof.
  induction 1 as [|a calls Hcalls IH Hall]; constructor; [done|].
  eapply Forall_impl; [done|]. intros b Hab.
  apply SparseMapFacts.element_le_spec. by left.
Qed.

Lemma ascending_NoDup calls :
  StronglySorted (λ a b, a.1 < b.1) calls → NoDup calls.*1.
Proof.
  induction 1 as [|a calls Hcalls IH Hall]; [constructor|].
  rewrite fmap_cons. constructor; [|done].
  intros (b & Hfirst & Hin)%list_elem_of_fmap.
  rewrite Forall_forall in Hall. apply Hall in Hin. lia.
Qed.

Lemma NoDup_first_inj m id value1 value2 :
  NoDup m.*1 → (id, value1) ∈ m → (id, value2) ∈ m → value1 = value2.
Proof.
  intros Hnodup [i Hi]%list_elem_of_lookup_1 [j Hj]%list_elem_of_lookup_1.
  assert (i = j) as ->; [|congruence].
  apply (NoDup_lookup m.*1 i j id); [done|..];
    by rewrite list_lookup_fmap, ?Hi, ?Hj.
Qed.

(** X11.  On any vector, sorted or not, [get id] returns only a value
    that is stored with the identifier [id], and fails only with
    [NotFound id]: a search on an unsorted vector can miss a stored
    pair, it cannot return the value of another identifier. *)
Theorem get_returns_stored m id :
  (∀ value, get id m = Ok value → (id, value) ∈ m) ∧
  (∀ id', get id m = NotFound id' → id' = id) ∧
  (lower_bound m (id, empty_value) first_lt ≤ length m)%nat.
Proof.
  split; [|split].
  - intros value. apply SparseMapFacts.get_Ok_stored.
  - intros id'. apply SparseMapFacts.get_NotFound_same_id.
  - apply lower_bound_range.
Qed.

(** X12.  After a batch of [set] calls and a [sort], [get id] succeeds
    for every identifier of the batch, also for one that several calls
    were made with: it then returns the least of the values stored for
    [id], as [sort] orders pairs with the same identifier by value. *)
Theorem get_after_sort_least `{!Compare TValue} calls id value :
  (id, value) ∈ calls →
  ∃ least,
    get id (sort (set_all calls [])) = Ok least ∧
    (id, least) ∈ calls ∧
    ∀ value', (id, value') ∈ calls → value_lt value' least = false.
Proof.
  intros Hin. rewrite SparseMapFacts.set_all_app, app_nil_l.
  pose proof (SparseMapFacts.sort_sorted calls) as Hsorted.
  pose proof (SparseMapFacts.sort_permutation calls) as Hperm.
  destruct (get_sorted_first (sort calls) id value Hsorted)
    as (first & least & Hget & Hfirst & Hleft); [by rewrite Hperm|].
  exists least. split; [done|]. split.
  { rewrite <- Hperm. by apply list_elem_of_lookup_2 in Hfirst. }
  intros value' Hin'. rewrite <- Hperm in Hin'.
  apply list_elem_of_lookup_1 in Hin' as [k Hk].
  pose proof (Hleft k value' Hk) as Hle.
  destruct (decide (first = k)) as [->|Hne].
  - replace value' with least by congruence. apply value_lt_irrefl.
  - assert (element_le (id, least) (id, value')) as Hord.
    { apply (sorted_lookup_le (sort calls) first k); [done|lia|done..]. }
    apply SparseMapFacts.element_le_spec in Hord. simpl in Hord.
    destruct Hord as [?|[_ ?]]; [lia|done].
Qed.

(** X13.  Where [operator<] of [TValue] is total, the sorted vector
    depends on which pairs were set, not on the order of the calls. *)
Theorem sort_forgets_insertion_order `{!TotalCompare TValue} calls1 calls2 :
  calls1 ≡ₚ calls2 →
  sort (set_all calls1 []) = sort (set_all calls2 []).
Proof.
  intros Hperm. rewrite !SparseMapFacts.set_all_app, !app_nil_l.
  apply SparseMapFacts.std_sort_result_unique. split.
  - by rewrite SparseMapFacts.sort_permutation.
  - apply SparseMapFacts.sort_sorted.
Qed.

(** X14.  A batch of [set] calls with strictly ascending identifiers
    leaves the vector as [sort] would: [sort] does not change it, and
    [get] finds every pair of the batch without it. *)
Theorem get_without_sort `{!Compare TValue} calls :
  StronglySorted (λ a b, a.1 < b.1) calls →
  sort (set_all calls []) = set_all calls [] ∧
  ∀ id value, (id, value) ∈ calls → get id (set_all calls []) = Ok value.
Proof.
  intros Hascending. rewrite SparseMapFacts.set_all_app, app_nil_l.
  pose proof (ascending_sorted calls Hascending) as Hsorted.
  pose proof (ascending_NoDup calls Hascending) as Hnodup.
  split.
  - apply (StronglySorted_unique_strong element_le);
      [|apply SparseMapFacts.sort_sorted|done
       |apply SparseMapFacts.sort_permutation].
    intros [id1 value1] [id2 value2] Hin1 Hin2 Hle1 Hle2.
    rewrite SparseMapFacts.sort_permutation in Hin1.
    apply SparseMapFacts.element_le_first in Hle1, Hle2. simpl in *.
    assert (id1 = id2) as -> by lia.
    f_equal. by apply (NoDup_first_inj calls id2).
  - intros id value Hin. by apply SparseMapFacts.get_sorted.
Qed.

(** X16.  On a vector that is in the order of [std::sort], however it
    got there (by [sort], by ascending insertion, or from a file handed
    to the constructor), [get id] fails exactly for the identifiers that
    no stored pair has. *)
Theorem get_on_sorted m id :
  StronglySorted element_le m →
  (get id m = NotFound id ↔ id ∉ m.*1) ∧
  (id ∈ m.*1 → ∃ value, get id m = Ok value ∧ (id, value) ∈ m).
Proof.
  intros Hsorted.
  assert (id ∈ m.*1 → ∃ value, get id m = Ok value ∧ (id, value) ∈ m)
    as Hfound.
  { intros ([id' value] & -> & Hin)%list_elem_of_fmap. simpl in *.
    destruct (get_sorted_first m id' value Hsorted Hin)
      as (first & least & Hget & Hfirst & _).
    exists least. split; [done|]. by apply list_elem_of_lookup_2 in Hfirst. }
  split; [|done]. split.
  - intros Hget Hin. destruct (Hfound Hin) as (value & Hvalue & _).
    congruence.
  - intros Hout. destruct (get id m) as [value|id'] eqn:Hget.
    + apply SparseMapFacts.get_Ok_stored in Hget.
      destruct Hout. apply list_elem_of_fmap. by exists (id, value).
    + by apply SparseMapFacts.get_NotFound_same_id in Hget as ->.
Qed.

End order.
End SparseMapOrder.

(** ** The two maps side by side *)

Section interchange.
Context {TValue : Type} {VT : ValueType TValue} {ST : Storage}.

(** X15.  The two maps answer alike.  For a batch of [set] calls with
    pairwise distinct identifiers, each one that the dense map can grow
    to hold, and values other than the sentinel, and a value type whose
    value-initialised element is the sentinel, the dense map after the
    batch and the sparse map after the batch and a [sort] give the same
    result of [get] for every identifier. *)
Theorem dense_sparse_agree `{!Compare TValue} calls :
  default_value = empty_value →
  NoDup calls.*1 →
  Forall (λ call, VectorBasedDenseMap.grows (call.1 + 1) ∧
                  call.2 ≠ empty_value) calls →
  ∃ m, VectorBasedDenseMap.set_sequence calls [] = Some (Normal m) ∧
    ∀ id, VectorBasedDenseMap.get id m =
          VectorBasedSparseMap.get id
            (VectorBasedSparseMap.sort
               (VectorBasedSparseMap.set_all calls [])).
Proof.
  intros Hdefault Hnodup Hcalls.
  destruct (DenseMapUpdates.set_sequence_slots calls)
    as (m & Hm & _ & _ & _ & Hlast & Hfresh).
  { eapply Forall_impl; [done|]. by intros call [? _]. }
  exists m. split; [done|]. intros id.
  rewrite SparseMapFacts.set_all_app, app_nil_l.
  destruct (decide (id ∈ calls.*1)) as [Hin|Hout].
  - apply list_elem_of_fmap in Hin as ([id' value] & -> & Hin). simpl.
    assert (value ≠ empty_value) as Hvalue.
    { rewrite Forall_forall in Hcalls. by apply (Hcalls _ Hin). }
    rewrite (SparseMapFacts.get_after_std_sort calls _ id' value);
      [|apply SparseMapFacts.sort_meets_std_sort|done..].
    apply DenseMapFacts.get_Ok. split; [|done].
    apply list_elem_of_split in Hin as (before & after & ->).
    apply (Hlast before id' value after); [done|].
    rewrite fmap_app, fmap_cons in Hnodup.
    apply NoDup_app in Hnodup as (_ & _ & Hnodup).
    by apply NoDup_cons in Hnodup as [? _].
  - transitivity (@NotFound TValue id).
    + apply DenseMapFacts.get_NotFound.
      destruct (Hfresh id Hout) as [Hnone|Hsome].
      * left. apply lookup_ge_None in Hnone.
        unfold VectorBasedDenseMap.size. lia.
      * right. by rewrite Hsome, Hdefault.
    + symmetry.
      destruct (VectorBasedSparseMap.get id (VectorBasedSparseMap.sort calls))
        as [value|id'] eqn:Hget.
      * apply SparseMapFacts.get_Ok_stored in Hget.
        rewrite SparseMapFacts.sort_permutation in Hget.
        destruct Hout. apply list_elem_of_fmap. by exists (id, value).
      * by apply SparseMapFacts.get_NotFound_same_id in Hget as ->.
Qed.

End interchange.

(** * The further properties at the example value types *)

Module DenseUpdateExamples.
Import VectorBasedDenseMap.

(** With the sentinel [0xFFFFFFFF]; value-initialisation gives [0]. *)
Section max_sentinel.
#[local] Existing Instance uint32_max_sentinel.
#[local] Existing Instance uint32_max_sentinel_layout.
#[local] Existing Instance example_storage.

Lemma room_for_5 : room_for 5 [7; 8; 9].
Proof. right. split; [discriminate|reflexivity]. Defined.

Lemma room_for_1 : room_for 1 [7; 8; 9].
Proof. left. reflexivity. Defined.

Lemma set_keeps_other_slots_witness :
  room_for 5 [7; 8; 9] ∧ 1 ≠ 5 ∧ 1 < size [7; 8; 9] ∧
  ∃ m', set 5 42 [7; 8; 9] = Some (Normal m') ∧
        m' !! N.to_nat 1 = [7; 8; 9] !! N.to_nat 1 ∧
        get 1 m' = get 1 [7; 8; 9].
Proof.
  split; [exact room_for_5|]. split; [discriminate|]. split; [reflexivity|].
  apply (DenseMapUpdates.set_keeps_other_slots 5 42 [7; 8; 9] 1 room_for_5);
    [discriminate|reflexivity].
Defined.

Lemma set_size_witness :
  room_for 5 [7; 8; 9] ∧
  ∃ m', set 5 42 [7; 8; 9] = Some (Normal m') ∧
        size m' = N.max (size [7; 8; 9]) (5 + 1).
Proof.
  split; [exact room_for_5|].
  apply (DenseMapUpdates.set_size 5 42 [7; 8; 9] room_for_5).
Defined.

(** The slot 4 that growth to 6 slots adds holds [0], which [get]
    returns, as [0] is not the sentinel here. *)
Lemma set_new_slots_witness :
  grows (5 + 1) ∧ size [7; 8; 9] ≤ 4 ∧ 4 ≠ 5 ∧
  ∃ m', set 5 42 [7; 8; 9] = Some (Normal m') ∧
        (4 < 5 →
           m' !! N.to_nat 4 = Some default_value ∧
           get 4 m' = if decide (default_value = empty_value)
                      then NotFound 4 else Ok default_value) ∧
        (5 < 4 → get 4 m' = NotFound 4).
Proof.
  assert (grows (5 + 1)) as Hgrows by (split; [discriminate|reflexivity]).
  split; [exact Hgrows|]. split; [discriminate|]. split; [discriminate|].
  apply (DenseMapUpdates.set_new_slots
           (VT := uint32_max_sentinel) 5 42 [7; 8; 9] 4 Hgrows);
    discriminate.
Defined.

Lemma set_sentinel_removes_witness :
  room_for 1 [7; 8; 9] ∧
  ∃ m', set 1 empty_value [7; 8; 9] = Some (Normal m') ∧
        get 1 m' = NotFound 1.
Proof.
  split; [exact room_for_1|].
  apply (DenseMapUpdates.set_sentinel_removes 1 [7; 8; 9] room_for_1).
Defined.

Lemma set_largest_identifier_witness :
  size [7; 8; 9] < 2 ^ word_bits ∧
  set (2 ^ word_bits - 1) 42 [7; 8; 9] = None.
Proof.
  split; [reflexivity|].
  apply (DenseMapUpdates.set_largest_identifier 42 [7; 8; 9]). reflexivity.
Defined.


Lemma set_returns_iff_witness :
  (∃ m', set 5 42 [7; 8; 9] = Some (Normal m')) ∧
  ¬ room_for (2 ^ 40 - 1) [7; 8; 9].
Proof.
  split.
  - apply (DenseMapUpdates.set_returns_iff 5 42 [7; 8; 9]), room_for_5.
  - intros [m' Hm']%(DenseMapUpdates.set_returns_iff (2 ^ 40 - 1) 42).
    vm_compute in Hm'. discriminate Hm'.
Defined.

(** On a map with room for the slot, and on one without. *)
Lemma set_overwrites_witness :
  and_then (set 5 41 [7; 8; 9]) (set 5 42) = set 5 42 [7; 8; 9] ∧
  and_then (set (2 ^ 61 - 1) 41 [7; 8; 9]) (set (2 ^ 61 - 1) 42) =
    Some (Throws length_error).
Proof.
  split.
  - apply (DenseMapUpdates.set_overwrites 5 41 42 [7; 8; 9]).
  - rewrite (DenseMapUpdates.set_overwrites (2 ^ 61 - 1) 41 42 [7; 8; 9]).
    reflexivity.
Defined.


Lemma set_on_empty_slots_witness :
  grows (5 + 1) ∧ set 5 42 [] = Some (Normal [0; 0; 0; 0; 0; 42]).
Proof.
  assert (grows (5 + 1)) as Hgrows by (split; [discriminate|reflexivity]).
  split; [exact Hgrows|].
  exact (DenseMapUpdates.set_on_empty_slots
           (VT := uint32_max_sentinel) 5 42 Hgrows).
Defined.

Lemma used_memory_accounts_witness :
  size [7; 8; 9] * sizeof_value < 2 ^ word_bits ∧
  used_memory [7; 8; 9] = 12 ∧
  used_memory [7; 8; 9] = byte_size [7; 8; 9] ∧
  used_memory [7; 8; 9] = N.of_nat (length (data_bytes [7; 8; 9])).
Proof.
  split; [reflexivity|].
  exact (DenseMapUpdates.used_memory_accounts
           (VT := uint32_max_sentinel) [7; 8; 9] eq_refl).
Defined.
End max_sentinel.

(** With the value-initialised [0] as the sentinel. *)
Section zero_sentinel.
#[local] Existing Instance uint32_zero_sentinel.
#[local] Existing Instance example_storage.

Lemma batch_grows :
  Forall (λ call : N * N, grows (call.1 + 1)) [(5, 1); (3, 2); (5, 4)].
Proof. repeat constructor; discriminate. Defined.

(** Two calls for the identifier 5: the second one counts. *)
Lemma get_after_set_sequence_witness :
  Forall (λ call : N * N, grows (call.1 + 1)) [(5, 1); (3, 2); (5, 4)] ∧
  ∃ m, set_sequence [(5, 1); (3, 2); (5, 4)] [] = Some (Normal m) ∧
       get 5 m = Ok 4 ∧ get 3 m = Ok 2 ∧ get 4 m = NotFound 4.
Proof.
  split; [exact batch_grows|].
  destruct (DenseMapUpdates.get_after_set_sequence
              [(5, 1); (3, 2); (5, 4)] batch_grows)
    as (m & Hm & Hlast & Hfresh).
  exists m. split; [exact Hm|]. split; [|split].
  - apply (Hlast [(5, 1); (3, 2)] 5 4 []); [reflexivity|].
    apply not_elem_of_nil.
  - apply (Hlast [(5, 1)] 3 2 [(5, 4)]); [reflexivity|].
    apply (bool_decide_unpack _). vm_compute. exact I.
  - apply (Hfresh eq_refl 4).
    apply (bool_decide_unpack _). vm_compute. exact I.
Defined.

Lemma size_after_set_sequence_witness :
  Forall (λ call : N * N, grows (call.1 + 1)) [(5, 1); (3, 2); (5, 4)] ∧
  ∃ m, set_sequence [(5, 1); (3, 2); (5, 4)] [] = Some (Normal m) ∧
       5 + 1 ≤ size m.
Proof.
  split; [exact batch_grows|].
  destruct (DenseMapUpdates.size_after_set_sequence
              [(5, 1); (3, 2); (5, 4)] batch_grows)
    as (m & Hm & Hbelow & _).
  exists m. split; [exact Hm|].
  apply (Hbelow (5, 1)). apply list_elem_of_here.
Defined.
End zero_sentinel.

End DenseUpdateExamples.

Module SparseOrderExamples.
Import VectorBasedSparseMap.

Section zero_sentinel.
#[local] Existing Instance uint32_zero_sentinel.
#[local] Existing Instance uint32_zero_sentinel_compare.
#[local] Existing Instance uint32_zero_sentinel_total.
#[local] Existing Instance example_storage.

(** On an unsorted vector: the search for 9 returns a value, which is
    stored with 9; the search for 3 ends at the pair of 5 and fails,
    with [NotFound 3]. *)
Lemma get_returns_stored_witness :
  get 9 [(5, 1); (3, 2); (9, 4)] = Ok 4 ∧
  (9, 4) ∈ [(5, 1); (3, 2); (9, 4)] ∧
  get 3 [(5, 1); (3, 2); (9, 4)] = NotFound 3 ∧
  (lower_bound [(5, 1); (3, 2); (9, 4)]%N (3%N, empty_value) first_lt ≤
   length [(5, 1); (3, 2); (9, 4)]%N)%nat.
Proof.
  assert (get 9 [(5, 1); (3, 2); (9, 4)] = Ok 4) as Hfound by reflexivity.
  assert (∃ id', get 3 [(5, 1); (3, 2); (9, 4)] = NotFound id')
    as [id' Hmissed] by (eexists; reflexivity).
  split; [exact Hfound|]. split; [|split].
  - exact (proj1 (SparseMapOrder.get_returns_stored
                    [(5, 1); (3, 2); (9, 4)] 9) 4 Hfound).
  - rewrite Hmissed. f_equal.
    exact (proj1 (proj2 (SparseMapOrder.get_returns_stored
                           [(5, 1); (3, 2); (9, 4)] 3)) id' Hmissed).
  - exact (proj2 (proj2 (SparseMapOrder.get_returns_stored
                           [(5, 1); (3, 2); (9, 4)] 3))).
Defined.

(** Two values for the identifier 3: [get] returns the smaller one. *)
Lemma get_after_sort_least_witness :
  (3, 2) ∈ [(3, 2); (5, 1); (3, 1)] ∧
  get 3 (sort (set_all [(3, 2); (5, 1); (3, 1)] [])) = Ok 1 ∧
  ∃ least,
    get 3 (sort (set_all [(3, 2); (5, 1); (3, 1)] [])) = Ok least ∧
    (3, least) ∈ [(3, 2); (5, 1); (3, 1)] ∧
    ∀ value', (3, value') ∈ [(3, 2); (5, 1); (3, 1)] →
              value_lt value' least = false.
Proof.
  assert ((3, 2) ∈ [(3, 2); (5, 1); (3, 1)]) as Hin
    by apply list_elem_of_here.
  split; [exact Hin|]. split; [reflexivity|].
  apply (SparseMapOrder.get_after_sort_least
           [(3, 2); (5, 1); (3, 1)] 3 2 Hin).
Defined.

Lemma sort_forgets_insertion_order_witness :
  [(5, 1); (3, 2)] ≡ₚ [(3, 2); (5, 1)] ∧
  sort (set_all [(5, 1); (3, 2)] []) = sort (set_all [(3, 2); (5, 1)] []).
Proof.
  assert ([(5, 1); (3, 2)] ≡ₚ [(3, 2); (5, 1)]) as Hperm
    by apply Permutation_swap.
  split; [exact Hperm|].
  apply (SparseMapOrder.sort_forgets_insertion_order _ _ Hperm).
Defined.

Lemma get_without_sort_witness :
  StronglySorted (λ a b : N * N, a.1 < b.1) [(3, 2); (5, 1); (9, 0)] ∧
  sort (set_all [(3, 2); (5, 1); (9, 0)] []) =
    set_all [(3, 2); (5, 1); (9, 0)] [] ∧
  get 5 (set_all [(3, 2); (5, 1); (9, 0)] []) = Ok 1.
Proof.
  assert (StronglySorted (λ a b : N * N, a.1 < b.1)
            [(3, 2); (5, 1); (9, 0)]) as Hascending
    by (repeat constructor).
  split; [exact Hascending|].
  destruct (SparseMapOrder.get_without_sort
              [(3, 2); (5, 1); (9, 0)] Hascending) as [Hsort Hget].
  split; [exact Hsort|]. apply Hget.
  apply list_elem_of_further, list_elem_of_here.
Defined.

Lemma get_on_sorted_witness :
  StronglySorted element_le [(3, 1); (3, 2); (5, 1)] ∧
  (get 4 [(3, 1); (3, 2); (5, 1)] = NotFound 4 ↔
   4 ∉ ([(3, 1); (3, 2); (5, 1)] : list (N * N)).*1) ∧
  (3 ∈ ([(3, 1); (3, 2); (5, 1)] : list (N * N)).*1 →
   ∃ value, get 3 [(3, 1); (3, 2); (5, 1)] = Ok value ∧
            (3, value) ∈ [(3, 1); (3, 2); (5, 1)]).
Proof.
  assert (StronglySorted element_le [(3, 1); (3, 2); (5, 1)]) as Hsorted
    by (apply (bool_decide_unpack _); vm_compute; exact I).
  split; [exact Hsorted|].
  split.
  - apply (SparseMapOrder.get_on_sorted [(3, 1); (3, 2); (5, 1)] 4 Hsorted).
  - apply (SparseMapOrder.get_on_sorted [(3, 1); (3, 2); (5, 1)] 3 Hsorted).
Defined.

Lemma dense_sparse_agree_witness :
  @default_value N _ = empty_value ∧
  NoDup ([(5, 1); (3, 2); (9, 7)] : list (N * N)).*1 ∧
  Forall (λ call : N * N, VectorBasedDenseMap.grows (call.1 + 1) ∧
                          call.2 ≠ empty_value)
    [(5, 1); (3, 2); (9, 7)] ∧
  ∃ m, VectorBasedDenseMap.set_sequence [(5, 1); (3, 2); (9, 7)] [] =
         Some (Normal m) ∧
    ∀ id, VectorBasedDenseMap.get id m =
          get id (sort (set_all [(5, 1); (3, 2); (9, 7)] [])).
Proof.
  assert (NoDup ([(5, 1); (3, 2); (9, 7)] : list (N * N)).*1) as Hnodup
    by (apply (bool_decide_unpack _); vm_compute; exact I).
  assert (Forall
            (λ call : N * N,
               VectorBasedDenseMap.grows (call.1 + 1) ∧
               call.2 ≠ empty_value)
            [(5, 1); (3, 2); (9, 7)]) as Hcalls
    by (repeat constructor; discriminate).
  split; [reflexivity|]. split; [exact Hnodup|]. split; [exact Hcalls|].
  apply (dense_sparse_agree (VT := uint32_zero_sentinel)
           [(5, 1); (3, 2); (9, 7)] eq_refl Hnodup Hcalls).
Defined.
End zero_sentinel.

End SparseOrderExamples.
